(** * A shallow embedding of go-leveldb-from-scratch

    The store is an LSM key-value engine written in Go.  This file embeds
    the current version of its core (src/internal_key.go, src/memtable.go,
    src/db.go) and proves or refutes the properties of its specification.

    Conventions of the embedding:
    - a byte is a [Z] in [0, 256); a Go [string] or [[]byte] is a [list Z];
    - a Go [[]byte] that may be [nil] is a [slice]: [None] is [nil];
    - [uint32] and [uint64] values are [Z] with their wrap-around written
      out where the code performs arithmetic on them. *)

From Stdlib Require Import ZArith List Lia Bool.
Import ListNotations.
Open Scope Z_scope.

(* ------------------------------------------------------------------ *)
(** ** Go values *)

Definition bytes := list Z.

(** A Go [[]byte]: [None] is the nil slice, [Some l] a non-nil slice. *)
Definition slice := option bytes.

Definition slen (s : slice) : nat :=
  match s with None => 0%nat | Some l => length l end.

Definition sbytes (s : slice) : bytes :=
  match s with None => [] | Some l => l end.

Definition MaxUint64 : Z := 2 ^ 64 - 1.
Definition MaxInt64 : Z := 2 ^ 63 - 1.

Fixpoint bytes_eqb (a b : bytes) : bool :=
  match a, b with
  | [], [] => true
  | x :: a', y :: b' => (x =? y) && bytes_eqb a' b'
  | _, _ => false
  end.

(** Go's [<] / [>] on strings: lexicographic on bytes. *)
Fixpoint bytes_compare (a b : bytes) : comparison :=
  match a, b with
  | [], [] => Eq
  | [], _ :: _ => Lt
  | _ :: _, [] => Gt
  | x :: a', y :: b' =>
      match Z.compare x y with
      | Eq => bytes_compare a' b'
      | c => c
      end
  end.

(* ------------------------------------------------------------------ *)
(** ** internal_key.go: InternalKey and its comparator *)

Definition OpType := Z.
Definition OpTypePut : OpType := 0.
Definition OpTypeDelete : OpType := 1.

Record InternalKey := mkIK {
  UserKey : bytes;
  SeqNum : Z;     (* uint64 *)
  Type_ : OpType   (* Go field [Type] (byte) *)
}.

(** [internalKeyComparable.Compare]: user key ascending, then sequence
    number descending; the op type is not compared. *)
Definition Compare (ik1 ik2 : InternalKey) : Z :=
  match bytes_compare (UserKey ik1) (UserKey ik2) with
  | Gt => 1
  | Lt => -1
  | Eq =>
      if SeqNum ik1 >? SeqNum ik2 then -1
      else if SeqNum ik1 <? SeqNum ik2 then 1
      else 0
  end.

(** Go's [==] on the struct [InternalKey] (all three fields). *)
Definition ik_eqb (a b : InternalKey) : bool :=
  bytes_eqb (UserKey a) (UserKey b) && (SeqNum a =? SeqNum b)
  && (Type_ a =? Type_ b).

(* ------------------------------------------------------------------ *)
(** ** memtable.go: MemTable over the skiplist

    The [huandu/skiplist] list ordered by [internalKeyComparable] is
    represented by the list of its elements in order.  [Set] updates the
    value of an element comparing equal to the key (keeping its key) and
    inserts a new element otherwise; [Find] returns the first element
    greater than or equal to the key. *)

Record MemTable := mkMem {
  data : list (InternalKey * slice);
  size : Z
}.

Definition NewMemTable : MemTable := mkMem [] 0.

Fixpoint skiplist_set (l : list (InternalKey * slice)) (k : InternalKey)
    (v : slice) : list (InternalKey * slice) :=
  match l with
  | [] => [(k, v)]
  | (k', v') :: r =>
      let c := Compare k' k in
      if c <? 0 then (k', v') :: skiplist_set r k v
      else if c =? 0 then (k', v) :: r
      else (k, v) :: l
  end.

Fixpoint skiplist_find (l : list (InternalKey * slice)) (k : InternalKey)
    : option (InternalKey * slice) :=
  match l with
  | [] => None
  | (k', v') :: r => if Compare k' k >=? 0 then Some (k', v') else skiplist_find r k
  end.

(** [MemTable.Put] *)
Definition mem_Put (m : MemTable) (key : InternalKey) (value : slice) : MemTable :=
  mkMem (skiplist_set (data m) key value)
        (size m + Z.of_nat (length (UserKey key)) + Z.of_nat (slen value)).

(** [MemTable.Get]: probe [(key, MaxUint64, OpTypePut)]. *)
Definition mem_Get (m : MemTable) (key : bytes) : slice * bool :=
  let searchKey := mkIK key MaxUint64 OpTypePut in
  match skiplist_find (data m) searchKey with
  | None => (None, false)
  | Some (foundKey, v) =>
      if negb (bytes_eqb (UserKey foundKey) key) then (None, false)
      else if Type_ foundKey =? OpTypeDelete then (None, true)
      else (v, true)
  end.

Definition ApproximateSize (m : MemTable) : Z := size m.

(** Keys of the skiplist are Go [interface{}] values.  The memtable stores
    [InternalKey]s; [MemTable.Delete] passes a raw [[]byte]. *)
Inductive Iface :=
| IKey (k : InternalKey)
| IBytes (b : bytes).

Inductive Outcome (A : Type) :=
| Ret (a : A)
| Panic.
Arguments Ret {A} a.
Arguments Panic {A}.

(** [Compare] with its type assertions [k1.(InternalKey)], [k2.(InternalKey)]:
    a failed assertion panics. *)
Definition Compare_iface (k1 k2 : Iface) : Outcome Z :=
  match k1 with
  | IBytes _ => Panic
  | IKey ik1 =>
      match k2 with
      | IBytes _ => Panic
      | IKey ik2 => Ret (Compare ik1 ik2)
      end
  end.

(** The skiplist's [Remove]: walk the elements in order, comparing each
    stored key with the argument, until one compares greater or equal;
    unlink it when it compares equal.  Returns the remaining elements and
    the removed value. *)
Fixpoint skiplist_remove (l : list (InternalKey * slice)) (key : Iface)
    : Outcome (option (list (InternalKey * slice) * slice)) :=
  match l with
  | [] => Ret None
  | (k', v') :: r =>
      match Compare_iface (IKey k') key with
      | Panic => Panic
      | Ret c =>
          if c <? 0 then
            match skiplist_remove r key with
            | Panic => Panic
            | Ret None => Ret None
            | Ret (Some (r', old)) => Ret (Some ((k', v') :: r', old))
            end
          else if c =? 0 then Ret (Some (r, v'))
          else Ret None
      end
  end.

(** [MemTable.Delete] *)
Definition mem_Delete (m : MemTable) (key : bytes) : Outcome MemTable :=
  match skiplist_remove (data m) (IBytes key) with
  | Panic => Panic
  | Ret None => Ret m
  | Ret (Some (rest, oldValue)) =>
      Ret (mkMem rest (size m - (Z.of_nat (length key) + Z.of_nat (slen oldValue))))
  end.

(* ------------------------------------------------------------------ *)
(** ** Little-endian integers and CRC-32/IEEE (encoding/binary, hash/crc32) *)

(** [binary.LittleEndian.PutUintN]: the low [8 * n] bits of [x]. *)
Fixpoint le_bytes (n : nat) (x : Z) : bytes :=
  match n with
  | O => []
  | S n' => Z.land x 255 :: le_bytes n' (Z.shiftr x 8)
  end.

(** [binary.LittleEndian.UintN] *)
Fixpoint le_decode (l : bytes) : Z :=
  match l with
  | [] => 0
  | b :: r => b + 256 * le_decode r
  end.

Definition crc_poly : Z := 3988292384.  (* 0xEDB88320, reflected IEEE *)
Definition crc_mask : Z := 4294967295.  (* 0xFFFFFFFF *)

(** One bit of the reflected CRC register. *)
Definition crc_shift (c : Z) : Z :=
  if Z.odd c then Z.lxor (Z.shiftr c 1) crc_poly else Z.shiftr c 1.

Definition crc_byte (c b : Z) : Z := Nat.iter 8 crc_shift (Z.lxor c b).

Definition crc_update (c : Z) (l : bytes) : Z := fold_left crc_byte l c.

(** [crc32.ChecksumIEEE] *)
Definition ChecksumIEEE (l : bytes) : Z :=
  Z.lxor (crc_update crc_mask l) crc_mask.

(* ------------------------------------------------------------------ *)
(** ** internal_key.go: the write-ahead log *)

Definition OpPut : Z := 0.
Definition OpDelete : Z := 1.

Record LogEntry := mkEntry {
  Op : Z;            (* byte *)
  Key : bytes;
  Value : slice;
  EntrySeqNum : Z    (* Go field [SeqNum] (uint64) *)
}.

(** The record body after the checksum, as built in [WAL.Write]:
    [Seq(8)][Key Size(4)][Value Size(4)][Op(1)][Key][Value]. *)
Definition wal_body (e : LogEntry) : bytes :=
  le_bytes 8 (EntrySeqNum e)
  ++ le_bytes 4 (Z.of_nat (length (Key e)))
  ++ le_bytes 4 (Z.of_nat (slen (Value e)))
  ++ [Op e]
  ++ Key e ++ sbytes (Value e).

(** The bytes [WAL.Write] appends: checksum, then the body. *)
Definition wal_record (e : LogEntry) : bytes :=
  le_bytes 4 (ChecksumIEEE (wal_body e)) ++ wal_body e.

(** [WAL.Write] on the bytes of the log file (buffer flush and fsync
    succeed). *)
Definition WAL_Write (file : bytes) (e : LogEntry) : bytes := file ++ wal_record e.

(** The file a fresh WAL holds after a sequence of successful writes. *)
Definition wal_file (es : list LogEntry) : bytes := fold_left WAL_Write es [].

Record RecoveredValue := mkRV {
  RValue : bytes;   (* Go field [Value]: always a non-nil slice of the file *)
  RType : OpType    (* Go field [Type] *)
}.

(** A Go [map[InternalKey]RecoveredValue]: an association list without
    duplicate keys; [data[k] = v] replaces the entry of [k]. *)
Definition RMap := list (InternalKey * RecoveredValue).

Definition map_set (m : RMap) (k : InternalKey) (v : RecoveredValue) : RMap :=
  (k, v) :: filter (fun p => negb (ik_eqb (fst p) k)) m.

Fixpoint map_get (m : RMap) (k : InternalKey) : option RecoveredValue :=
  match m with
  | [] => None
  | (k', v) :: r => if ik_eqb k' k then Some v else map_get r k
  end.

Inductive ReplayError :=
| ErrChecksumRead     (* binary.Read of the checksum: io.ErrUnexpectedEOF *)
| ErrHeader           (* "could not read header" *)
| ErrKeyValue         (* "could not read key/value" *)
| ErrCorruption       (* "data corruption: checksum mismatch" *)
| ErrOpen.            (* os.OpenFile failed for another reason than absence *)

Inductive ReplayResult :=
| ReplayOk (m : RMap) (maxSeqNum : Z)
| ReplayErr (e : ReplayError)
| ReplayPanic.        (* kvBuf[:keySize] out of range *)

(** The [for] loop of [Replay] over the remaining bytes of the file.  Each
    iteration that goes on consumes at least 21 bytes, so [fuel] larger than
    the length of the file never runs out. *)
Fixpoint replay_loop (fuel : nat) (rest : bytes) (data : RMap) (maxSeqNum : Z)
    : ReplayResult :=
  match fuel with
  | O => ReplayOk data maxSeqNum
  | S fuel' =>
      match rest with
      | [] => ReplayOk data maxSeqNum                       (* io.EOF *)
      | _ =>
        if (length rest <? 4)%nat then ReplayErr ErrChecksumRead else
        let storedChecksum := le_decode (firstn 4 rest) in
        let r1 := skipn 4 rest in
        if (length r1 <? 17)%nat then ReplayErr ErrHeader else
        let headerBuf := firstn 17 r1 in
        let r2 := skipn 17 r1 in
        let seqNum := le_decode (firstn 8 headerBuf) in
        let keySize := le_decode (firstn 4 (skipn 8 headerBuf)) in
        let valueSize := le_decode (firstn 4 (skipn 12 headerBuf)) in
        let op := nth 16 headerBuf 0 in
        (* keySize+valueSize is a uint32 sum *)
        let kvLen := (keySize + valueSize) mod 2 ^ 32 in
        if (length r2 <? Z.to_nat kvLen)%nat then ReplayErr ErrKeyValue else
        let kvBuf := firstn (Z.to_nat kvLen) r2 in
        let r3 := skipn (Z.to_nat kvLen) r2 in
        if negb (storedChecksum =? ChecksumIEEE (headerBuf ++ kvBuf))
        then ReplayErr ErrCorruption else
        let maxSeqNum' := if seqNum >? maxSeqNum then seqNum else maxSeqNum in
        if keySize >? kvLen then ReplayPanic else
        let key := firstn (Z.to_nat keySize) kvBuf in
        let value := skipn (Z.to_nat keySize) kvBuf in
        let internalKey := mkIK key seqNum op in
        replay_loop fuel' r3 (map_set data internalKey (mkRV value op)) maxSeqNum'
      end
  end.

(** [Replay] on the contents of an existing file. *)
Definition replay_bytes (file : bytes) : ReplayResult :=
  replay_loop (S (length file)) file [] 0.

(* ------------------------------------------------------------------ *)
(** ** memtable.go: SSTable writer and reader

    The data blocks are kept as the lists of records they encode
    ([key_len][val_len][gob(key)][value] each); the decoding of a gob key
    is taken to give back the key that was encoded.  An index entry
    locates its block by position ([Offset]/[Size] in the code).  The
    bloom filter is kept as the user keys added to it; its answers are
    those keys plus the false positives [bloom_fp] of the library. *)

Definition DataBlockSize : Z := 4096.

Record IndexEntry := mkIndex {
  LastKey : InternalKey;
  BlockNo : nat
}.

Record SSTable := mkSST {
  sst_blocks : list (list (InternalKey * bytes));
  sst_index : list IndexEntry;
  sst_filter : list bytes
}.

Definition zeroIK : InternalKey := mkIK [] 0 0.
Definition zeroIndex : IndexEntry := mkIndex zeroIK 0.

Section SSTables.

(** Byte length of the gob encoding of an internal key. *)
Variable gob_len : InternalKey -> Z.

(** The false positives of a bloom filter built over the given keys. *)
Variable bloom_fp : list bytes -> bytes -> bool.

(** The loop of [WriteSSTable] over the memtable's elements in order.  The
    buffer is emitted as a block when, before a record is appended, it
    already holds more than [DataBlockSize] bytes. *)
Fixpoint write_loop (it : list (InternalKey * slice)) (filterKeys : list bytes)
    (blocks : list (list (InternalKey * bytes))) (index : list IndexEntry)
    (blockBuffer : list (InternalKey * bytes)) (bufLen : Z)
    (lastKeyInBlock : InternalKey) : SSTable :=
  match it with
  | [] =>
      if bufLen >? 0
      then mkSST (blocks ++ [blockBuffer])
                 (index ++ [mkIndex lastKeyInBlock (length blocks)]) filterKeys
      else mkSST blocks index filterKeys
  | (internalKey, value) :: it' =>
      let filterKeys' := filterKeys ++ [UserKey internalKey] in
      let '(blocks', index', buf', len') :=
        if bufLen >? DataBlockSize
        then (blocks ++ [blockBuffer],
              index ++ [mkIndex lastKeyInBlock (length blocks)], [], 0)
        else (blocks, index, blockBuffer, bufLen) in
      write_loop it' filterKeys' blocks' index'
        (buf' ++ [(internalKey, sbytes value)])
        (len' + 8 + gob_len internalKey + Z.of_nat (slen value))
        internalKey
  end.

(** [WriteSSTable] when every write succeeds. *)
Definition WriteSSTable (it : list (InternalKey * slice)) : SSTable :=
  write_loop it [] [] [] [] 0 zeroIK.

(** [filter.Test] *)
Definition bloom_Test (filter : list bytes) (k : bytes) : bool :=
  existsb (bytes_eqb k) filter || bloom_fp filter k.

(** [sort.Search]: binary search for the least index where [f] holds. *)
Fixpoint search_loop (fuel : nat) (i j : nat) (f : nat -> bool) : nat :=
  match fuel with
  | O => i
  | S fuel' =>
      if (i <? j)%nat then
        let h := Nat.div2 (i + j) in
        if negb (f h) then search_loop fuel' (S h) j f
        else search_loop fuel' i h f
      else i
  end.

Definition sort_Search (n : nat) (f : nat -> bool) : nat :=
  search_loop (S n) 0 n f.

(** The record loop of [SSTableReader.Get] inside one block. *)
Fixpoint scan_block (blk : list (InternalKey * bytes)) (userKey : bytes)
    : slice * bool :=
  match blk with
  | [] => (None, false)
  | (ik, v) :: r =>
      if bytes_eqb (UserKey ik) userKey then
        if Type_ ik =? OpTypeDelete then (None, true) else (Some v, true)
      else scan_block r userKey
  end.

(** [SSTableReader.Get] on a completely written SSTable (no I/O error):
    the probe key is [(userKey, math.MaxInt64, OpTypePut)]. *)
Definition sst_Get (t : SSTable) (userKey : bytes) : slice * bool :=
  if negb (bloom_Test (sst_filter t) userKey) then (None, false) else
  let searchKey := mkIK userKey MaxInt64 OpTypePut in
  let index := sst_index t in
  let blockIndex :=
    sort_Search (length index)
      (fun i => Compare (LastKey (nth i index zeroIndex)) searchKey >=? 0) in
  if (length index <=? blockIndex)%nat then (None, false) else
  let entry := nth blockIndex index zeroIndex in
  scan_block (nth (BlockNo entry) (sst_blocks t) []) userKey.

End SSTables.

(* ------------------------------------------------------------------ *)
(** ** db.go: the store engine

    The data directory is an association list from paths to files.  Paths
    stand for the names the code formats: [state.json], [db.wal],
    [wal-%05d.log] and [%05d.sst]. *)

Inductive Path :=
| PState
| PActiveWal
| PRotatedWal (n : Z)
| PSst (n : Z).

Definition path_eqb (p q : Path) : bool :=
  match p, q with
  | PState, PState => true
  | PActiveWal, PActiveWal => true
  | PRotatedWal n, PRotatedWal m => n =? m
  | PSst n, PSst m => n =? m
  | _, _ => false
  end.

(** A complete SSTable ([FSst]); the same tables whose footer or blocks can
    no longer be read, through an I/O error or damage on disk
    ([FSstUnreadable]); the partial file left by a failed [WriteSSTable]
    ([FSstPartial]); the state file. *)
Inductive File :=
| FWal (b : bytes)
| FSst (t : SSTable)
| FSstUnreadable (t : SSTable)
| FSstPartial
| FState (counter : Z).

Definition FS := list (Path * File).

Fixpoint fs_get (fs : FS) (p : Path) : option File :=
  match fs with
  | [] => None
  | (q, f) :: r => if path_eqb q p then Some f else fs_get r p
  end.

Definition fs_remove (fs : FS) (p : Path) : FS :=
  filter (fun e => negb (path_eqb (fst e) p)) fs.

Definition fs_set (fs : FS) (p : Path) (f : File) : FS := (p, f) :: fs_remove fs p.

(** [os.Rename]: replaces the target if it exists. *)
Definition fs_rename (fs : FS) (src dst : Path) : option FS :=
  match fs_get fs src with
  | None => None
  | Some f => Some (fs_set (fs_remove fs src) dst f)
  end.

Definition MemTableSizeThreshold : Z := 4096.

Record DB := mkDB {
  mem : MemTable;
  immutableMem : option MemTable;
  ssTableCounter : Z;
  sequenceNum : Z     (* atomic.Uint64 *)
}.

(** The background goroutine started by [flushMemtable], with what it
    captured: the immutable memtable and the rotated WAL path. *)
Record FlushTask := mkTask {
  task_imm : MemTable;
  task_wal : Path
}.

Record World := mkWorld {
  db : DB;
  fs : FS;
  tasks : list FlushTask
}.

Definition set_mem (d : DB) (m : MemTable) : DB :=
  mkDB m (immutableMem d) (ssTableCounter d) (sequenceNum d).

(** [WAL.Write] through the engine's handle on [db.wal]. *)
Definition wal_append (fs : FS) (e : LogEntry) : FS :=
  match fs_get fs PActiveWal with
  | Some (FWal b) => fs_set fs PActiveWal (FWal (WAL_Write b e))
  | _ => fs_set fs PActiveWal (FWal (WAL_Write [] e))
  end.

(** [flushMemtable], the part run by the writer under the write latch:
    coalescing, WAL rotation, memtable rotation, and spawning the worker. *)
Definition flushMemtable (w : World) : World :=
  let d := db w in
  match immutableMem d with
  | Some _ => w
  | None =>
      let rotatedWalPath := PRotatedWal (ssTableCounter d) in
      match fs_rename (fs w) PActiveWal rotatedWalPath with
      | None => w          (* "CRITICAL: Failed to rename WAL" *)
      | Some fs1 =>
          let fs2 := fs_set fs1 PActiveWal (FWal []) in   (* NewWal *)
          mkWorld (mkDB NewMemTable (Some (mem d)) (ssTableCounter d) (sequenceNum d))
                  fs2 (tasks w ++ [mkTask (mem d) rotatedWalPath])
      end
  end.

(** [DB.Put]; also returns the sequence number it assigned. *)
Definition DB_Put (w : World) (key : bytes) (value : slice) : World * Z :=
  let d := db w in
  let seqNum := (sequenceNum d + 1) mod 2 ^ 64 in
  let internalKey := mkIK key seqNum OpTypePut in
  let entry := mkEntry OpPut key value seqNum in
  let fs1 := wal_append (fs w) entry in
  let memTable := mem_Put (mem d) internalKey value in
  let w1 := mkWorld (mkDB memTable (immutableMem d) (ssTableCounter d) seqNum)
                    fs1 (tasks w) in
  (if ApproximateSize memTable >? MemTableSizeThreshold then flushMemtable w1 else w1,
   seqNum).

(** [DB.Delete]: a tombstone put with a nil value. *)
Definition DB_Delete (w : World) (key : bytes) : World * Z :=
  let d := db w in
  let seqNum := (sequenceNum d + 1) mod 2 ^ 64 in
  let internalKey := mkIK key seqNum OpTypeDelete in
  let entry := mkEntry OpDelete key None seqNum in
  let fs1 := wal_append (fs w) entry in
  let memTable := mem_Put (mem d) internalKey None in
  let w1 := mkWorld (mkDB memTable (immutableMem d) (ssTableCounter d) seqNum)
                    fs1 (tasks w) in
  (if ApproximateSize memTable >? MemTableSizeThreshold then flushMemtable w1 else w1,
   seqNum).

(** The outcome of the file operations of the background flush: the
    [WriteSSTable] fails; it succeeds and [saveState] fails, leaving the
    state file [st] ([os.WriteFile] either could not open the file, which
    keeps its old contents, or truncated it and wrote part of the JSON,
    which [json.Unmarshal] rejects; [None] is no file); [saveState]
    succeeds and [os.Remove] of the rotated WAL fails; everything
    succeeds. *)
Inductive FlushResult :=
| WriteFailed
| SaveStateFailed (st : option File)
| RemoveFailed
| FlushOk.

Section Engine.

Variable gob_len : InternalKey -> Z.
Variable bloom_fp : list bytes -> bytes -> bool.

(** The background goroutine of [flushMemtable], run on the oldest pending
    task, with [r] the outcome of its file operations. *)
Definition flush_worker (w : World) (r : FlushResult) : World :=
  match tasks w with
  | [] => w
  | t :: ts =>
      let d := db w in
      let sstablePath := PSst (ssTableCounter d) in
      let counter := ssTableCounter d + 1 in          (* db.ssTableCounter++ *)
      let fs1 := fs_set (fs w) sstablePath
                   (FSst (WriteSSTable gob_len (data (task_imm t)))) in
      let d1 := mkDB (mem d) None counter (sequenceNum d) in   (* immutableMem = nil *)
      let fs2 := fs_set fs1 PState (FState counter) in         (* saveState *)
      match r with
      | WriteFailed =>
          (* "ERROR: Failed to write SSTable"; os.Create left a partial file *)
          mkWorld (mkDB (mem d) (immutableMem d) counter (sequenceNum d))
                  (fs_set (fs w) sstablePath FSstPartial) ts
      | SaveStateFailed st =>
          (* "CRITICAL ERROR: Failed to save state file"; return *)
          mkWorld d1 (match st with
                      | None => fs_remove fs1 PState
                      | Some f => fs_set fs1 PState f
                      end) ts
      | RemoveFailed =>
          (* "ERROR: Failed to delete rotated WAL" *)
          mkWorld d1 fs2 ts
      | FlushOk =>
          mkWorld d1 (fs_remove fs2 (task_wal t)) ts        (* os.Remove *)
      end
  end.

(** The SSTable loop of [DB.Get]: ordinals [n], [n-1], ..., [1]; a table
    that cannot be opened is skipped. *)
Fixpoint sst_loop (fs : FS) (n : nat) (key : bytes) : slice * bool :=
  match n with
  | O => (None, false)
  | S n' =>
      match fs_get fs (PSst (Z.of_nat n)) with
      | Some (FSst t) =>
          let '(val, found) := sst_Get bloom_fp t key in
          if found then
            match val with None => (None, false) | Some _ => (val, true) end
          else sst_loop fs n' key
      | _ => sst_loop fs n' key     (* "Error opening SSTable reader" *)
      end
  end.

(** [DB.Get] *)
Definition DB_Get (w : World) (key : bytes) : slice * bool :=
  let d := db w in
  let '(val, found) := mem_Get (mem d) key in
  if found then
    match val with None => (None, false) | Some _ => (val, true) end
  else
    let imm_result :=
      match immutableMem d with
      | None => None
      | Some imm =>
          let '(val, found) := mem_Get imm key in
          if found then
            Some (match val with None => (None, false) | Some _ => (val, true) end)
          else None
      end in
    match imm_result with
    | Some r => r
    | None => sst_loop (fs w) (Z.to_nat (ssTableCounter d - 1)) key
    end.

End Engine.

(** [Replay] on a path of the data directory: a missing file is an empty
    log. *)
Definition Replay (fs : FS) (p : Path) : ReplayResult :=
  match fs_get fs p with
  | None => ReplayOk [] 0
  | Some (FWal b) => replay_bytes b
  | Some _ => ReplayErr ErrOpen
  end.

Fixpoint insert_sorted (x : Z) (l : list Z) : list Z :=
  match l with
  | [] => [x]
  | y :: r => if x <=? y then x :: l else y :: insert_sorted x r
  end.

(** [filepath.Glob("wal-*.log")] followed by [sort.Strings]; for the
    zero-padded names the string order is the order of the ordinals. *)
Definition rotated_wals (fs : FS) : list Path :=
  map PRotatedWal
    (fold_right insert_sorted []
       (flat_map (fun e => match fst e with PRotatedWal n => [n] | _ => [] end) fs)).

(** The [for key, value := range recoveredData] loop of [NewDB].  Go ranges
    over a map in an unspecified order; the memtable's ordered insertion
    makes the result independent of it for distinct keys. *)
Definition put_recovered (m : MemTable) (rm : RMap) : MemTable :=
  fold_left (fun acc kv => mem_Put acc (fst kv) (Some (RValue (snd kv)))) rm m.

(** The replay loop of [NewDB] over the WAL segments: [Ret None] when it
    returns [Replay]'s error, [Panic] when [Replay] panics. *)
Fixpoint recover (fs : FS) (walFiles : list Path) (m : MemTable) (maxSeqNum : Z)
    : Outcome (option (MemTable * Z)) :=
  match walFiles with
  | [] => Ret (Some (m, maxSeqNum))
  | p :: ps =>
      match fs_get fs p with
      | None => recover fs ps m maxSeqNum          (* os.IsNotExist: continue *)
      | Some _ =>
          match Replay fs p with
          | ReplayOk rd lastSeq =>
              recover fs ps (put_recovered m rd)
                      (if lastSeq >? maxSeqNum then lastSeq else maxSeqNum)
          | ReplayErr _ => Ret None            (* return nil, err *)
          | ReplayPanic => Panic
          end
      end
  end.

(** [NewDB] on the files of the data directory; [Ret None] when it returns
    an error, [Panic] when it panics. *)
Definition NewDB (fs : FS) : Outcome (option World) :=
  let state :=
    match fs_get fs PState with
    | None => Some 1
    | Some (FState c) => Some c
    | Some _ => None
    end in
  match state with
  | None => Ret None
  | Some counter =>
      match recover fs (rotated_wals fs ++ [PActiveWal]) NewMemTable 0 with
      | Panic => Panic
      | Ret None => Ret None
      | Ret (Some (m, maxSeqNum)) =>
          let fs1 := match fs_get fs PActiveWal with
                     | Some _ => fs
                     | None => fs_set fs PActiveWal (FWal [])     (* NewWal *)
                     end in
          let fs2 := fs_set fs1 PState (FState counter) in      (* saveState *)
          Ret (Some (mkWorld (mkDB m None counter maxSeqNum) fs2 []))
      end
  end.

(** Operations on an open engine. *)
Inductive DBOp :=
| OPut (k : bytes) (v : slice)
| ODelete (k : bytes)
| OGet (k : bytes)
| OWorker (r : FlushResult).

Section Run.
Variable gob_len : InternalKey -> Z.

(** Runs operations in order; returns the final world and the sequence
    numbers assigned by the writes, in order. *)
Fixpoint run (w : World) (ops : list DBOp) : World * list Z :=
  match ops with
  | [] => (w, [])
  | OPut k v :: ops' =>
      let '(w1, s) := DB_Put w k v in
      let '(w2, ss) := run w1 ops' in (w2, s :: ss)
  | ODelete k :: ops' =>
      let '(w1, s) := DB_Delete w k in
      let '(w2, ss) := run w1 ops' in (w2, s :: ss)
  | OGet _ :: ops' => run w ops'
  | OWorker r :: ops' => run (flush_worker gob_len w r) ops'
  end.
End Run.

(** A WAL file with one bit flipped: bit [b] of the byte at [pos]. *)
Fixpoint flip_bit (l : bytes) (pos : nat) (b : Z) : bytes :=
  match l, pos with
  | [], _ => []
  | x :: r, O => Z.lxor x (2 ^ b) :: r
  | x :: r, S p => x :: flip_bit r p b
  end.

(* ------------------------------------------------------------------ *)
(** ** Concrete inputs *)

(** A stand-in for the length of a gob-encoded internal key (a type
    descriptor of some tens of bytes plus the fields).  The inputs below
    are chosen so that the block boundaries do not depend on it. *)
Definition gob_len_example (ik : InternalKey) : Z :=
  64 + Z.of_nat (length (UserKey ik)).

(** A bloom filter without false positives. *)
Definition no_false_positive (f : list bytes) (k : bytes) : bool := false.

Definition key_k : bytes := [107].        (* "k" *)
Definition key_a : bytes := [97].         (* "a" *)
Definition key_b : bytes := [98].         (* "b" *)
Definition val_old : bytes := [111].      (* "o" *)
Definition val_new : bytes := [110].      (* "n" *)

(** A 4097-byte value: one put of it exceeds [MemTableSizeThreshold]. *)
Definition big_value : bytes := repeat 0 4097.

Definition empty_world : World := mkWorld (mkDB NewMemTable None 0 0) [] [].

Definition open_or_empty (fs : FS) : World :=
  match NewDB fs with Ret (Some w) => w | _ => empty_world end.

(** A fresh store: [put("k","o")], then a big put that rotates the
    memtable, then a successful background flush into [00001.sst]. *)
Definition session1_ops : list DBOp :=
  [OPut key_k (Some val_old); OPut key_a (Some big_value); OWorker FlushOk].

Definition session1 : World :=
  fst (run gob_len_example (open_or_empty []) session1_ops).

(** The directory of [session1] with one more WAL record in [db.wal], whose
    sequence number is [2^63]. *)
Definition high_seq_entry : LogEntry := mkEntry OpPut key_b (Some [1]) (2 ^ 63).

Definition fs_high_seq : FS :=
  wal_append (fs session1) high_seq_entry.

(** Reopened on that directory: [delete("k")], then a big put that rotates
    the memtable, then a successful background flush into [00002.sst]. *)
Definition session2_ops : list DBOp :=
  [ODelete key_k; OPut key_a (Some big_value); OWorker FlushOk].

Definition session2 : World :=
  fst (run gob_len_example (open_or_empty fs_high_seq) session2_ops).

(** Two SSTables holding ["k"]: the newer one unreadable. *)
Definition sst_old : SSTable :=
  WriteSSTable gob_len_example [(mkIK key_k 1 OpTypePut, Some val_old)].
Definition sst_new : SSTable :=
  WriteSSTable gob_len_example [(mkIK key_k 2 OpTypePut, Some val_new)].

Definition fs_two_tiers : FS :=
  [(PState, FState 3); (PSst 2, FSstUnreadable sst_new); (PSst 1, FSst sst_old)].

(** A memtable with two versions of ["k"], the newer one at sequence
    number [2^63] with a value large enough to close a data block. *)
Definition mem_two_versions : MemTable :=
  mem_Put (mem_Put NewMemTable (mkIK key_k 1 OpTypePut) (Some val_old))
          (mkIK key_k (2 ^ 63) OpTypePut) (Some big_value).

(** The WAL record of the checksum counterexample: sequence 1, empty key,
    a 36-byte value whose last 32 bytes are themselves a valid record. *)
Definition crc_clash_entry : LogEntry :=
  mkEntry OpPut []
    (Some [193; 222; 184; 225; 51; 57; 103; 137; 2; 0; 0; 0; 0; 0; 0; 0;
           1; 0; 0; 0; 10; 0; 0; 0; 0; 113; 65; 65; 65; 65; 65; 65; 65;
           65; 65; 65]) 1.

(** The world right after a big put rotated the memtable: one pending
    background flush. *)
Definition rotated_world : World :=
  fst (run gob_len_example (open_or_empty []) [OPut key_a (Some big_value)]).

(** ** The read path described tier by tier *)

Inductive Tier :=
| TActive
| TImmutable
| TSstable (n : Z).

(** Active memtable, immutable memtable if any, then SSTable ordinals
    [sstable_counter - 1] down to [1]. *)
Definition tier_order (d : DB) : list Tier :=
  TActive
  :: (match immutableMem d with Some _ => [TImmutable] | None => [] end)
  ++ map (fun n => TSstable (Z.of_nat n))
         (rev (seq 1 (Z.to_nat (ssTableCounter d - 1)))).

(** The lookup of one tier; [None] when the tier cannot be consulted (no
    immutable memtable, or an SSTable that cannot be opened). *)
Definition tier_lookup (bloom_fp : list bytes -> bytes -> bool) (w : World)
    (t : Tier) (key : bytes) : option (slice * bool) :=
  match t with
  | TActive => Some (mem_Get (mem (db w)) key)
  | TImmutable =>
      match immutableMem (db w) with
      | Some m => Some (mem_Get m key)
      | None => None
      end
  | TSstable n =>
      match fs_get (fs w) (PSst n) with
      | Some (FSst t) => Some (sst_Get bloom_fp t key)
      | _ => None
      end
  end.

(** The verdict of the first tier that reports the key found: its value, or
    [(nil, false)] when that value is nil; [(nil, false)] when no tier
    reports it. *)
Fixpoint first_verdict (rs : list (option (slice * bool))) : slice * bool :=
  match rs with
  | [] => (None, false)
  | Some (v, true) :: _ =>
      match v with None => (None, false) | Some _ => (v, true) end
  | _ :: rs' => first_verdict rs'
  end.

(** ** WAL records: well-formed entries and examples *)

(** The internal key and recovered value [Replay] stores for a log entry. *)
Definition entry_key (e : LogEntry) : InternalKey := mkIK (Key e) (EntrySeqNum e) (Op e).
Definition entry_value (e : LogEntry) : RecoveredValue := mkRV (sbytes (Value e)) (Op e).

(** An entry Go can represent and [Replay] can read back: a [uint64]
    sequence number, byte-valued op and contents, and a key/value size
    whose [uint32] sum does not wrap. *)
Definition byte_ok (b : Z) : bool := (0 <=? b) && (b <? 256).
Definition wal_entry_ok (e : LogEntry) : bool :=
  (0 <=? EntrySeqNum e) && (EntrySeqNum e <? 2 ^ 64) && byte_ok (Op e)
  && forallb byte_ok (Key e) && forallb byte_ok (sbytes (Value e))
  && (Z.of_nat (length (Key e) + slen (Value e)) <? 2 ^ 32).

(** Three entries with distinct sequence numbers, one of them a delete. *)
Definition wal_example_entries : list LogEntry :=
  [mkEntry OpPut key_k (Some val_old) 1; mkEntry OpDelete key_k None 2;
   mkEntry OpPut [] (Some []) 7].

(** An entry whose key and value are each 2^31 bytes long: the [uint32] sum
    [keySize+valueSize] that [Replay] allocates wraps to 0. *)
Definition huge_entry : LogEntry :=
  mkEntry OpPut (repeat 0 (Z.to_nat (2 ^ 31))) (Some (repeat 0 (Z.to_nat (2 ^ 31)))) 1.


(** ** Definitions for the further properties *)

(** Sortedness of the skiplist's entries (strictly increasing by [Compare]). *)
Fixpoint skiplist_ordered {A : Type} (l : list (InternalKey * A)) : bool :=
  match l with
  | [] => true
  | (k, _) :: r =>
      match r with
      | [] => true
      | (k', _) :: _ => (Compare k k' <? 0) && skiplist_ordered r
      end
  end.

Ltac zbool :=
  repeat match goal with
  | H : (_ >? _) = _ |- _ => rewrite Z.gtb_ltb in H
  | H : (_ >=? _) = _ |- _ => rewrite Z.geb_leb in H
  | H : Z.ltb _ _ = true |- _ => apply Z.ltb_lt in H
  | H : Z.ltb _ _ = false |- _ => apply Z.ltb_ge in H
  | H : Z.leb _ _ = true |- _ => apply Z.leb_le in H
  | H : Z.leb _ _ = false |- _ => apply Z.leb_gt in H
  | H : Z.eqb _ _ = true |- _ => apply Z.eqb_eq in H
  | H : Z.eqb _ _ = false |- _ => apply Z.eqb_neq in H
  end.


(** The answer of [MemTable.Get] read off the first entry of a user key. *)
Definition newest_verdict (l : list (InternalKey * slice)) (key : bytes) : slice * bool :=
  match find (fun e => bytes_eqb (UserKey (fst e)) key) l with
  | None => (None, false)
  | Some (k, v) => if Type_ k =? OpTypeDelete then (None, true) else (v, true)
  end.


(** ** The second [package main] of src/memtable.go: the plain SSTable format *)

Module Legacy.

(** Errors of [io.ReadFull] and [binary.Read] on a file. *)
Inductive ReadError :=
| EOF
| ErrUnexpectedEOF.

(** [io.ReadFull]: [n] bytes from the current position. *)
Definition ReadFull (n : nat) (r : bytes) : (bytes * bytes) + ReadError :=
  if (n =? 0)%nat then inl ([], r) else
  match r with
  | [] => inr EOF
  | _ :: _ => if (length r <? n)%nat then inr ErrUnexpectedEOF
              else inl (firstn n r, skipn n r)
  end.

(** [binary.Read(file, binary.LittleEndian, &x)] for a [uint32] [x]. *)
Definition ReadUint32 (r : bytes) : (Z * bytes) + ReadError :=
  match ReadFull 4 r with
  | inl (b, r') => inl (le_decode b, r')
  | inr e => inr e
  end.

(** One iteration of the write loop of the second [WriteSSTable]: the two
    sizes as little-endian [uint32], then the key and the value. *)
Definition record (e : bytes * bytes) : bytes :=
  le_bytes 4 (Z.of_nat (length (fst e)) mod 2 ^ 32)
  ++ le_bytes 4 (Z.of_nat (length (snd e)) mod 2 ^ 32)
  ++ fst e ++ snd e.

(** The second [WriteSSTable(path, it)], every write succeeding: the file
    contents. *)
Definition WriteSSTable (it : list (bytes * bytes)) : bytes :=
  concat (map record it).

(** The loop of [FindInSSTable] from the current position [r]; [Seek] past
    the end of the file leaves nothing to read. *)
Fixpoint find_loop (fuel : nat) (r key : bytes) : slice * bool * option ReadError :=
  match fuel with
  | O => (None, false, None)
  | S fuel' =>
      match ReadUint32 r with
      | inr EOF => (None, false, None)
      | inr e => (None, false, Some e)
      | inl (keySize, r1) =>
          match ReadUint32 r1 with
          | inr e => (None, false, Some e)
          | inl (valueSize, r2) =>
              match ReadFull (Z.to_nat keySize) r2 with
              | inr e => (None, false, Some e)
              | inl (keyBuf, r3) =>
                  if bytes_eqb keyBuf key then
                    match ReadFull (Z.to_nat valueSize) r3 with
                    | inr e => (None, false, Some e)
                    | inl (valueBuf, _) => (Some valueBuf, true, None)
                    end
                  else find_loop fuel' (skipn (Z.to_nat valueSize) r3) key
              end
          end
      end
  end.

(** [FindInSSTable(path, key)] on the file contents: every iteration
    consumes at least eight bytes or ends the loop. *)
Definition FindInSSTable (file key : bytes) : slice * bool * option ReadError :=
  find_loop (S (length file)) file key.

End Legacy.

(* ================================================================== *)
(** * Properties *)

(** ** Concrete runs of the code *)

(** C1 (code_bug).  On a fresh store, [put("k", nil)] then [get("k")]
    returns [(nil, false)]: [DB.Get] takes a nil value for a tombstone.  The
    same empty value as a non-nil slice is found, and the nil put is found
    too once it has been flushed to an SSTable (the reader returns a
    non-nil empty slice). *)
Theorem put_nil_value_not_readable : forall bloom_fp,
  DB_Get bloom_fp (fst (DB_Put (open_or_empty []) key_k None)) key_k = (None, false) /\
  DB_Get bloom_fp (fst (DB_Put (open_or_empty []) key_k (Some []))) key_k = (Some [], true) /\
  DB_Get bloom_fp
    (fst (run gob_len_example (open_or_empty [])
            [OPut key_k None; OPut key_a (Some big_value); OWorker FlushOk])) key_k
  = (Some [], true).
Proof.
  intros bloom_fp. split; [|split]; vm_compute; reflexivity.
Qed.

(** C2 (code_bug).  After [delete("k")] at a sequence number above
    [MaxInt64], flushed into [00002.sst], [get("k")] returns the value that
    an older put left in [00001.sst]: the tombstone is in the newest table
    but its reader does not find it. *)
Theorem delete_invisible_above_maxint64 : forall bloom_fp,
  match fs_get (fs session2) (PSst 2) with
  | Some (FSst t) =>
      In (mkIK key_k (2 ^ 63 + 1) OpTypeDelete, []) (concat (sst_blocks t))
  | _ => False
  end /\
  DB_Get bloom_fp session2 key_k = (Some val_old, true).
Proof.
  intros bloom_fp. split.
  - vm_compute. right. right. left. reflexivity.
  - vm_compute. reflexivity.
Qed.

(** C4 (code_bug).  An SSTable written from the single record
    [("k", 2^63, PUT) -> "n"] does not give it back: the reader reports
    not-found. *)
Theorem sstable_loses_key_above_maxint64 : forall bloom_fp,
  sst_Get bloom_fp
    (WriteSSTable gob_len_example [(mkIK key_k (2 ^ 63) OpTypePut, Some val_new)])
    key_k = (None, false).
Proof.
  intros bloom_fp. vm_compute. reflexivity.
Qed.

(** C7 (code_bug).  The memtable probes with [MaxUint64], the SSTable
    reader with [MaxInt64].  With two versions of ["k"], the newer at
    sequence number [2^63], the memtable returns the newer one and the
    SSTable written from the same memtable returns the older one. *)
Theorem probe_keys_differ : forall bloom_fp,
  MaxUint64 <> MaxInt64 /\
  mem_Get mem_two_versions key_k = (Some big_value, true) /\
  sst_Get bloom_fp (WriteSSTable gob_len_example (data mem_two_versions)) key_k
  = (Some val_old, true).
Proof.
  intros bloom_fp. split; [|split].
  - vm_compute. discriminate.
  - vm_compute. reflexivity.
  - vm_compute. reflexivity.
Qed.

(** ** Counterexamples *)

(** C3.  The newest SSTable holding ["k"] cannot be read; [get] skips it and
    returns the verdict of an older table. *)
Lemma get_skips_unreadable_newest_tier :
  fs_get (fs (open_or_empty fs_two_tiers)) (PSst 2) = Some (FSstUnreadable sst_new) /\
  sst_Get no_false_positive sst_new key_k = (Some val_new, true) /\
  DB_Get no_false_positive (open_or_empty fs_two_tiers) key_k = (Some val_old, true).
Proof.
  split; [|split]; vm_compute; reflexivity.
Qed.

(** C6.  Flipping bit 5 of the [val_len] field (file offset 16) of a
    one-record log makes [Replay] accept the file and recover two records. *)
Lemma wal_length_flip_accepted :
  replay_bytes (flip_bit (wal_file [crc_clash_entry]) 16 5)
  = ReplayOk [(mkIK [113] 2 0, mkRV [65; 65; 65; 65; 65; 65; 65; 65; 65; 65] 0);
              (mkIK [] 1 0, mkRV [193; 222; 184; 225] 0)] 2.
Proof.
  vm_compute. reflexivity.
Qed.

(** C8.  A failed SSTable write still advances [sstable_counter]. *)
Lemma flush_failure_advances_counter :
  ssTableCounter (db rotated_world) = 1 /\
  tasks rotated_world <> [] /\
  ssTableCounter (db (flush_worker gob_len_example rotated_world WriteFailed)) = 2.
Proof.
  split; [|split]; vm_compute; [reflexivity | discriminate | reflexivity].
Qed.

(** C9.  A fresh store assigns sequence numbers 1 and 2, flushes them to
    [00001.sst] and removes the rotated log; reopened, it assigns 1 again. *)
Lemma sequence_reused_after_reopen :
  snd (run gob_len_example (open_or_empty []) session1_ops) = [1; 2] /\
  match NewDB (fs session1) with
  | Ret (Some w) => snd (run gob_len_example w [OPut key_b (Some [1])]) = [1]
  | _ => False
  end.
Proof.
  split; vm_compute; reflexivity.
Qed.

(** ** C10: MemTable.Delete *)

(** C10.  On a memtable with at least one entry, [MemTable.Delete] panics in
    the comparator's type assertion before anything is removed; the engine's
    [Delete] does not call it and records a tombstone put instead (in the
    active memtable, or in the immutable one when that put triggered a
    rotation). *)
Theorem memtable_delete_never_succeeds :
  (forall m key, data m <> [] -> mem_Delete m key = Panic) /\
  (forall w key,
     let m' := mem_Put (mem (db w))
                 (mkIK key ((sequenceNum (db w) + 1) mod 2 ^ 64) OpTypeDelete) None in
     mem (db (fst (DB_Delete w key))) = m'
     \/ (mem (db (fst (DB_Delete w key))) = NewMemTable
         /\ immutableMem (db (fst (DB_Delete w key))) = Some m')).
Proof.
  split.
  - intros [[|[k' v'] r] sz] key Hne; simpl in *.
    + congruence.
    + unfold mem_Delete. simpl. reflexivity.
  - intros w key m'. unfold DB_Delete. cbv zeta.
    destruct (ApproximateSize _ >? MemTableSizeThreshold).
    + unfold flushMemtable. simpl.
      destruct (immutableMem (db w)); [left; reflexivity|].
      destruct (fs_rename _ _ _); [right; split; reflexivity | left; reflexivity].
    + left. reflexivity.
Qed.

Lemma memtable_delete_never_succeeds_witness :
  data mem_two_versions <> [] /\ mem_Delete mem_two_versions key_k = Panic.
Proof.
  assert (H : data mem_two_versions <> []) by (vm_compute; discriminate).
  split; [exact H|].
  apply (proj1 memtable_delete_never_succeeds). exact H.
Defined.

(** ** C3: the read path *)

Lemma sst_loop_tiers : forall bloom_fp w n key,
  sst_loop bloom_fp (fs w) n key
  = first_verdict (map (fun t => tier_lookup bloom_fp w t key)
                       (map (fun n => TSstable (Z.of_nat n)) (rev (seq 1 n)))).
Proof.
  intros bloom_fp w n key. induction n as [|n IH]; [reflexivity|].
  rewrite seq_S, rev_app_distr. simpl.
  destruct (fs_get (fs w) (PSst (Z.pos (Pos.of_succ_nat n)))) as [[b|t|t| |c]|];
    try exact IH.
  destruct (sst_Get bloom_fp t key) as [[v|] [|]]; try reflexivity; exact IH.
Qed.

(** C3 (amended).  [get] consults the active memtable, then the immutable
    memtable if any, then the SSTables [sstable_counter - 1] down to [1],
    skipping any SSTable that cannot be opened, and returns the verdict of
    the first tier that reports the key found. *)
Theorem get_first_found_tier : forall bloom_fp w key,
  DB_Get bloom_fp w key
  = first_verdict (map (fun t => tier_lookup bloom_fp w t key) (tier_order (db w))).
Proof.
  intros bloom_fp w key. unfold DB_Get, tier_order.
  simpl map. simpl first_verdict at 1.
  destruct (mem_Get (mem (db w)) key) as [v [|]] eqn:Ha.
  - destruct v; reflexivity.
  - destruct (immutableMem (db w)) as [imm|] eqn:Hi.
    + simpl. rewrite Hi.
      destruct (mem_Get imm key) as [v' [|]].
      * destruct v'; reflexivity.
      * rewrite (sst_loop_tiers bloom_fp w). reflexivity.
    + simpl. rewrite (sst_loop_tiers bloom_fp w). reflexivity.
Qed.

(** ** C8: the background flush worker *)

Lemma path_eqb_spec : forall p q, path_eqb p q = true <-> p = q.
Proof.
  intros [| |n|n] [| |m|m]; simpl; split; intro H; try discriminate; try reflexivity;
    try (apply Z.eqb_eq in H; subst; reflexivity);
    try (injection H as ->; apply Z.eqb_refl).
Qed.

Lemma path_eqb_refl : forall p, path_eqb p p = true.
Proof. intros p. apply path_eqb_spec. reflexivity. Qed.

(** Decides [path_eqb q p] for a path variable [p] from the hypotheses
    [p <> q]. *)
Ltac path_cases :=
  repeat match goal with
  | |- context [path_eqb ?q ?p] =>
      is_var p;
      let E := fresh "E" in
      destruct (path_eqb q p) eqn:E;
      [apply path_eqb_spec in E; subst p; congruence |]
  end.


Lemma fs_get_remove : forall fs p q,
  fs_get (fs_remove fs p) q = if path_eqb p q then None else fs_get fs q.
Proof.
  intros fs p q. induction fs as [|[q0 f] r IH]; simpl.
  - destruct (path_eqb p q); reflexivity.
  - destruct (path_eqb q0 p) eqn:E; simpl.
    + apply path_eqb_spec in E. subst q0. rewrite IH.
      destruct (path_eqb p q); reflexivity.
    + rewrite IH. destruct (path_eqb p q) eqn:F; [|reflexivity].
      apply path_eqb_spec in F. subst q. rewrite E. reflexivity.
Qed.

Lemma fs_get_set : forall fs p f q,
  fs_get (fs_set fs p f) q = if path_eqb p q then Some f else fs_get fs q.
Proof.
  intros fs p f q. unfold fs_set. simpl. rewrite fs_get_remove.
  destruct (path_eqb p q); reflexivity.
Qed.

(** Normalises [fs_get] through [fs_set] and [fs_remove]. *)
Ltac fs_norm :=
  rewrite ?fs_get_remove, ?fs_get_set; path_cases;
  rewrite ?path_eqb_refl; cbn [path_eqb]; rewrite ?Z.eqb_refl.

(** The SSTable loop does not reach ordinals above its start. *)
Lemma sst_loop_above : forall bloom_fp fs c f n key,
  Z.of_nat n < c ->
  sst_loop bloom_fp (fs_set fs (PSst c) f) n key = sst_loop bloom_fp fs n key.
Proof.
  intros bloom_fp fs c f n key. induction n as [|n IH]; intros Hn; [reflexivity|].
  cbn [sst_loop]. rewrite fs_get_set.
  replace (path_eqb (PSst c) (PSst (Z.of_nat (S n)))) with false
    by (simpl; symmetry; apply Z.eqb_neq; lia).
  rewrite IH by lia. reflexivity.
Qed.

(** C8 (amended).  The worker advances [sstable_counter] before it writes
    the SSTable at the old ordinal.  If the write fails, only the counter
    and the partial file at that ordinal change: the immutable memtable
    stays, every other file (the rotated WAL, the state file) is unchanged,
    and [get] answers as before.  If it succeeds, the SSTable of the
    captured memtable is at the old ordinal and the immutable slot is
    cleared, and no other file changes except the state file and the
    rotated WAL: when [saveState] fails the worker stops there, with the
    rotated WAL still on disk; otherwise the state file holds the advanced
    counter, and the rotated WAL is gone unless [os.Remove] fails. *)
Theorem flush_worker_outcomes : forall gob_len bloom_fp w t ts n,
  tasks w = t :: ts ->
  task_wal t = PRotatedWal n ->
  let c := ssTableCounter (db w) in
  (let w' := flush_worker gob_len w WriteFailed in
   ssTableCounter (db w') = c + 1 /\
   mem (db w') = mem (db w) /\
   immutableMem (db w') = immutableMem (db w) /\
   tasks w' = ts /\
   fs_get (fs w') (PSst c) = Some FSstPartial /\
   (forall p, p <> PSst c -> fs_get (fs w') p = fs_get (fs w) p) /\
   (forall key, DB_Get bloom_fp w' key = DB_Get bloom_fp w key)) /\
  (forall r, r <> WriteFailed ->
   let w' := flush_worker gob_len w r in
   ssTableCounter (db w') = c + 1 /\
   mem (db w') = mem (db w) /\
   immutableMem (db w') = None /\
   tasks w' = ts /\
   fs_get (fs w') (PSst c) = Some (FSst (WriteSSTable gob_len (data (task_imm t)))) /\
   (forall p, p <> PSst c -> p <> PState -> p <> task_wal t ->
      fs_get (fs w') p = fs_get (fs w) p) /\
   (forall st, r = SaveStateFailed st ->
      fs_get (fs w') PState = st /\ fs_get (fs w') (task_wal t) = fs_get (fs w) (task_wal t)) /\
   (r = RemoveFailed ->
      fs_get (fs w') PState = Some (FState (c + 1)) /\
      fs_get (fs w') (task_wal t) = fs_get (fs w) (task_wal t)) /\
   (r = FlushOk ->
      fs_get (fs w') PState = Some (FState (c + 1)) /\ fs_get (fs w') (task_wal t) = None)).
Proof.
  intros gob_len bloom_fp w t ts n Ht Hwal c.
  split.
  - unfold flush_worker. rewrite Ht. cbv zeta.
    cbn [db fs tasks mem immutableMem ssTableCounter sequenceNum]. fold c.
    repeat split; try reflexivity.
    + rewrite fs_get_set, path_eqb_refl. reflexivity.
    + intros p Hp. rewrite fs_get_set. path_cases. reflexivity.
    + intros key. unfold DB_Get.
      cbn [db fs mem immutableMem ssTableCounter]. fold c.
      destruct (mem_Get (mem (db w)) key) as [v [|]]; [reflexivity|].
      destruct (immutableMem (db w)) as [imm|].
      * destruct (mem_Get imm key) as [v' [|]]; [reflexivity|].
        destruct (Z_le_gt_dec c 0) as [Hc|Hc].
        -- replace (Z.to_nat (c + 1 - 1)) with O by lia.
           replace (Z.to_nat (c - 1)) with O by lia. reflexivity.
        -- replace (Z.to_nat (c + 1 - 1)) with (S (Z.to_nat (c - 1))) by lia.
           cbn [sst_loop]. rewrite fs_get_set.
           replace (Z.of_nat (S (Z.to_nat (c - 1)))) with c by lia.
           rewrite path_eqb_refl. apply sst_loop_above. lia.
      * destruct (Z_le_gt_dec c 0) as [Hc|Hc].
        -- replace (Z.to_nat (c + 1 - 1)) with O by lia.
           replace (Z.to_nat (c - 1)) with O by lia. reflexivity.
        -- replace (Z.to_nat (c + 1 - 1)) with (S (Z.to_nat (c - 1))) by lia.
           cbn [sst_loop]. rewrite fs_get_set.
           replace (Z.of_nat (S (Z.to_nat (c - 1)))) with c by lia.
           rewrite path_eqb_refl. apply sst_loop_above. lia.
  - intros r Hr. unfold flush_worker. rewrite Ht. cbv zeta.
    cbn [db fs tasks mem immutableMem ssTableCounter sequenceNum]. fold c. rewrite Hwal.
    destruct r as [|st| |]; [contradiction| | |];
      cbn [db fs tasks mem immutableMem ssTableCounter sequenceNum];
      (split; [reflexivity|]); (split; [reflexivity|]); (split; [reflexivity|]);
      (split; [reflexivity|]).
    + split; [destruct st; fs_norm; reflexivity|].
      split; [intros p Hp1 Hp2 Hp3; destruct st; fs_norm; reflexivity|].
      split; [|split; intros E; discriminate].
      intros st' E. injection E as E. subst st'.
      destruct st; fs_norm; split; reflexivity.
    + split; [fs_norm; reflexivity|].
      split; [intros p Hp1 Hp2 Hp3; fs_norm; reflexivity|].
      split; [intros st' E; discriminate|]. split; [|intros E; discriminate].
      intros _. fs_norm. split; reflexivity.
    + split; [fs_norm; reflexivity|].
      split; [intros p Hp1 Hp2 Hp3; fs_norm; reflexivity|].
      split; [intros st' E; discriminate|]. split; [intros E; discriminate|].
      intros _. fs_norm. split; reflexivity.
Qed.

Lemma flush_worker_outcomes_witness :
  exists t ts n, tasks rotated_world = t :: ts /\ task_wal t = PRotatedWal n /\
  ssTableCounter (db (flush_worker gob_len_example rotated_world WriteFailed))
  = ssTableCounter (db rotated_world) + 1.
Proof.
  exists (hd (mkTask NewMemTable PState) (tasks rotated_world)),
         (tl (tasks rotated_world)), 1.
  assert (H1 : tasks rotated_world
               = hd (mkTask NewMemTable PState) (tasks rotated_world)
                 :: tl (tasks rotated_world)) by (vm_compute; reflexivity).
  assert (H2 : task_wal (hd (mkTask NewMemTable PState) (tasks rotated_world))
               = PRotatedWal 1) by (vm_compute; reflexivity).
  split; [exact H1|]. split; [exact H2|].
  exact (proj1 (proj1 (flush_worker_outcomes gob_len_example no_false_positive
                          rotated_world _ _ 1 H1 H2))).
Defined.

(** ** C9: sequence numbers *)

Lemma replay_loop_bound : forall fuel rest data mx rd mx',
  replay_loop fuel rest data mx = ReplayOk rd mx' ->
  (forall k v, In (k, v) data -> SeqNum k <= mx) ->
  mx <= mx' /\ (forall k v, In (k, v) rd -> SeqNum k <= mx').
Proof.
  induction fuel as [|fuel IH]; intros rest data mx rd mx' H Hd; simpl in H.
  - injection H as <- <-. split; [lia | exact Hd].
  - destruct rest as [|b r]; [injection H as <- <-; split; [lia | exact Hd]|].
    cbv zeta in H.
    repeat match type of H with
           | context [if ?c then _ else _] => destruct c eqn:?
           end; try discriminate.
    all: apply IH in H; [destruct H as [H1 H2]; split; [lia | exact H2] |].
    all: intros k v Hin; destruct Hin as [Heq | Hin];
      [injection Heq as <- _; simpl; lia
      | apply filter_In in Hin; apply proj1, Hd in Hin; lia].
Qed.

Lemma Replay_bound : forall fs p rd ls,
  Replay fs p = ReplayOk rd ls ->
  0 <= ls /\ (forall k v, In (k, v) rd -> SeqNum k <= ls).
Proof.
  intros fs p rd ls H. unfold Replay in H.
  destruct (fs_get fs p) as [[b| | | |]|]; try discriminate.
  - apply replay_loop_bound in H; [exact H | intros k v []].
  - injection H as <- <-. split; [lia | intros k v []].
Qed.

Lemma recover_bound : forall fs ps m mx m' mx',
  recover fs ps m mx = Ret (Some (m', mx')) -> 0 <= mx ->
  mx <= mx' /\
  (forall p rd ls, In p ps -> Replay fs p = ReplayOk rd ls ->
     ls <= mx' /\ forall k v, In (k, v) rd -> SeqNum k <= mx').
Proof.
  intros fs ps. induction ps as [|p ps IH]; intros m mx m' mx' H H0; simpl in H.
  - injection H as <- <-. split; [lia | intros p rd ls []].
  - destruct (fs_get fs p) eqn:G.
    + destruct (Replay fs p) as [rd0 ls0| |] eqn:R; try discriminate.
      assert (Hg : ls0 > mx /\ (ls0 >? mx) = true \/ ls0 <= mx /\ (ls0 >? mx) = false)
        by (destruct (ls0 >? mx) eqn:E;
            [left; apply Z.gtb_lt in E | right; rewrite Z.gtb_ltb, Z.ltb_ge in E]; lia).
      apply IH in H; [|destruct Hg as [[Hg ->]|[Hg ->]]; lia].
      destruct H as [H1 H2].
      assert (Hmx : mx <= mx') by (destruct Hg as [[Hg E]|[Hg E]]; rewrite E in H1; lia).
      assert (Hls : ls0 <= mx') by (destruct Hg as [[Hg E]|[Hg E]]; rewrite E in H1; lia).
      split; [exact Hmx|].
      intros q rd ls [<- | Hq] Hr.
      * rewrite R in Hr. injection Hr as <- <-.
        apply Replay_bound in R. destruct R as [_ R].
        split; [exact Hls | intros k v Hin; apply R in Hin; lia].
      * exact (H2 q rd ls Hq Hr).
    + apply IH in H; [|exact H0]. destruct H as [H1 H2].
      split; [exact H1|].
      intros q rd ls [<- | Hq] Hr.
      * unfold Replay in Hr. rewrite G in Hr. injection Hr as <- <-.
        split; [lia | intros k v []].
      * exact (H2 q rd ls Hq Hr).
Qed.

Lemma flushMemtable_seq : forall w,
  sequenceNum (db (flushMemtable w)) = sequenceNum (db w).
Proof.
  intros w. unfold flushMemtable.
  destruct (immutableMem (db w)); [reflexivity|].
  destruct (fs_rename _ _ _); reflexivity.
Qed.

Lemma DB_Put_seq : forall w k v w1 s,
  DB_Put w k v = (w1, s) ->
  s = (sequenceNum (db w) + 1) mod 2 ^ 64 /\ sequenceNum (db w1) = s.
Proof.
  intros w k v w1 s H. unfold DB_Put in H. cbv zeta in H.
  destruct (ApproximateSize _ >? MemTableSizeThreshold);
    injection H as <- <-; split; try reflexivity.
  rewrite flushMemtable_seq. reflexivity.
Qed.

Lemma DB_Delete_seq : forall w k w1 s,
  DB_Delete w k = (w1, s) ->
  s = (sequenceNum (db w) + 1) mod 2 ^ 64 /\ sequenceNum (db w1) = s.
Proof.
  intros w k w1 s H. unfold DB_Delete in H. cbv zeta in H.
  destruct (ApproximateSize _ >? MemTableSizeThreshold);
    injection H as <- <-; split; try reflexivity.
  rewrite flushMemtable_seq. reflexivity.
Qed.

Lemma flush_worker_seq : forall gob_len w ok,
  sequenceNum (db (flush_worker gob_len w ok)) = sequenceNum (db w).
Proof.
  intros gob_len w ok. unfold flush_worker.
  destruct (tasks w); [reflexivity|]. destruct ok; reflexivity.
Qed.

Lemma seq_step : forall s n,
  map (fun i => s + 1 + Z.of_nat i) (seq 1 n)
  = map (fun i => s + Z.of_nat i) (seq 2 n).
Proof.
  intros s n. rewrite <- (seq_shift n 1), map_map.
  apply map_ext. intros i. lia.
Qed.

Lemma run_seqs : forall gob_len ops w,
  0 <= sequenceNum (db w) ->
  sequenceNum (db w) + Z.of_nat (length (snd (run gob_len w ops))) < 2 ^ 64 ->
  snd (run gob_len w ops)
  = map (fun i => sequenceNum (db w) + Z.of_nat i)
        (seq 1 (length (snd (run gob_len w ops)))).
Proof.
  intros gob_len ops. induction ops as [|[k v|k|k|ok] ops IH]; intros w;
    cbn [run].
  - reflexivity.
  - destruct (DB_Put w k v) as [w1 s] eqn:E. apply DB_Put_seq in E.
    destruct E as [Es E1].
    destruct (run gob_len w1 ops) as [w2 ss] eqn:R. simpl. intros H0 Hlt.
    rewrite Z.mod_small in Es by lia.
    assert (IH' := IH w1). rewrite R in IH'. simpl in IH'.
    rewrite IH' by lia. rewrite E1, Es, seq_step, length_map, length_seq. reflexivity.
  - destruct (DB_Delete w k) as [w1 s] eqn:E. apply DB_Delete_seq in E.
    destruct E as [Es E1].
    destruct (run gob_len w1 ops) as [w2 ss] eqn:R. simpl. intros H0 Hlt.
    rewrite Z.mod_small in Es by lia.
    assert (IH' := IH w1). rewrite R in IH'. simpl in IH'.
    rewrite IH' by lia. rewrite E1, Es, seq_step, length_map, length_seq. reflexivity.
  - apply IH.
  - intros H0 Hlt. rewrite <- (flush_worker_seq gob_len w ok) in H0, Hlt |- *.
    apply IH; assumption.
Qed.

Lemma NewDB_seq : forall fs w,
  NewDB fs = Ret (Some w) ->
  exists m, recover fs (rotated_wals fs ++ [PActiveWal]) NewMemTable 0
            = Ret (Some (m, sequenceNum (db w))).
Proof.
  intros fs w H. unfold NewDB in H.
  destruct (match fs_get fs PState with
            | None => Some 1 | Some (FState c) => Some c | Some _ => None end);
    [|discriminate].
  destruct (recover fs _ NewMemTable 0) as [[[m mx]|]|]; try discriminate.
  injection H as <-. exists m. reflexivity.
Qed.

Lemma replay_loop_attained : forall fuel rest data mx rd mx' mx0,
  replay_loop fuel rest data mx = ReplayOk rd mx' ->
  (mx = mx0 \/ exists k v, In (k, v) data /\ SeqNum k = mx) ->
  mx' = mx0 \/ exists k v, In (k, v) rd /\ SeqNum k = mx'.
Proof.
  induction fuel as [|fuel IH]; intros rest data mx rd mx' mx0 H Hi; simpl in H.
  - injection H as <- <-. exact Hi.
  - destruct rest as [|b r]; [injection H as <- <-; exact Hi|].
    cbv zeta in H.
    repeat match type of H with
           | context [if ?c then _ else _] => destruct c eqn:?
           end; try discriminate.
    all: apply (IH _ _ _ _ _ mx0 H).
    all: match goal with
         | Hi : ?m = _ \/ _, E : (_ >? ?m) = true |- _ =>
             right; eexists; eexists; split; [left; reflexivity | reflexivity]
         | Hi : ?m = _ \/ _, E : (_ >? ?m) = false |- _ =>
             destruct Hi as [Hi|[k [v [Hin Hk]]]]; [left; exact Hi|right]
         end.
    match goal with
    | |- exists _ _, In _ (map_set data ?ik ?rv) /\ _ =>
        destruct (ik_eqb k ik) eqn:E
    end.
    + eexists; eexists; split; [left; reflexivity|].
      unfold ik_eqb in E. apply andb_prop in E as [E _]. apply andb_prop in E as [_ E].
      apply Z.eqb_eq in E. cbn [SeqNum] in *. congruence.
    + exists k, v. split; [|exact Hk]. right. apply filter_In.
      split; [exact Hin|]. cbn [fst]. rewrite E. reflexivity.
Qed.

Lemma Replay_attained : forall fs p rd ls,
  Replay fs p = ReplayOk rd ls ->
  ls = 0 \/ exists k v, In (k, v) rd /\ SeqNum k = ls.
Proof.
  intros fs p rd ls H. unfold Replay in H.
  destruct (fs_get fs p) as [[b| | | |]|]; try discriminate.
  - exact (replay_loop_attained _ _ _ _ _ _ 0 H (or_introl eq_refl)).
  - injection H as <- <-. left. reflexivity.
Qed.

Lemma recover_attained : forall fs ps m mx m' mx',
  recover fs ps m mx = Ret (Some (m', mx')) ->
  mx' = mx \/ exists p rd, In p ps /\ Replay fs p = ReplayOk rd mx'.
Proof.
  intros fs ps. induction ps as [|p ps IH]; intros m mx m' mx' H; simpl in H.
  - injection H as <- <-. left. reflexivity.
  - destruct (fs_get fs p) eqn:G.
    + destruct (Replay fs p) as [rd0 ls0| |] eqn:R; try discriminate.
      apply IH in H. destruct H as [H|[q [rd [Hq Hr]]]].
      * destruct (ls0 >? mx); [right; exists p, rd0; split; [left; reflexivity | congruence]
                              | left; exact H].
      * right. exists q, rd. split; [right; exact Hq | exact Hr].
    + apply IH in H. destruct H as [H|[q [rd [Hq Hr]]]]; [left; exact H|].
      right. exists q, rd. split; [right; exact Hq | exact Hr].
Qed.

(** C9 (amended).  [NewDB] initialises the sequence counter to the
    largest sequence number recovered from the WAL segments it replays
    (the rotated segments in order, then [db.wal]), 0 when there is none:
    every recovered sequence number is at most the counter, and the
    counter is 0 or one of them.  The writes of the engine instance are
    then assigned [s+1], [s+2], ... in order: strictly increasing, unique
    and above the recovered ones, as long as they stay below [2^64]. *)
Theorem sequence_increasing_within_instance : forall gob_len fs w ops,
  NewDB fs = Ret (Some w) ->
  let s := sequenceNum (db w) in
  let ss := snd (run gob_len w ops) in
  s + Z.of_nat (length ss) < 2 ^ 64 ->
  (forall p rd ls, In p (rotated_wals fs ++ [PActiveWal]) ->
     Replay fs p = ReplayOk rd ls ->
     ls <= s /\ forall k v, In (k, v) rd -> SeqNum k <= s) /\
  (s = 0 \/ exists p rd ls k v, In p (rotated_wals fs ++ [PActiveWal]) /\
     Replay fs p = ReplayOk rd ls /\ In (k, v) rd /\ SeqNum k = s) /\
  ss = map (fun i => s + Z.of_nat i) (seq 1 (length ss)) /\
  (forall i j, (i < j < length ss)%nat -> s < nth i ss 0 < nth j ss 0).
Proof.
  intros gob_len fs w ops H s ss Hlt.
  destruct (NewDB_seq fs w H) as [m Hr].
  assert (Ha := recover_attained _ _ _ _ _ _ Hr).
  apply recover_bound in Hr; [|lia]. destruct Hr as [H0 Hr].
  assert (Hss : ss = map (fun i => s + Z.of_nat i) (seq 1 (length ss)))
    by (apply run_seqs; assumption).
  split; [exact Hr|]. split.
  { destruct Ha as [Ha|[p [rd [Hp Hrd]]]]; [left; exact Ha|].
    destruct (Replay_attained _ _ _ _ Hrd) as [Hz|[k [v [Hin Hk]]]]; [left; exact Hz|].
    right. exists p, rd, s, k, v. repeat split; assumption. }
  split; [exact Hss|].
  intros i j Hij.
  assert (Hn : forall n, (n < length ss)%nat -> nth n ss 0 = s + Z.of_nat (S n)).
  { intros n Hn. rewrite Hss.
    rewrite (nth_indep _ 0 (s + Z.of_nat 0))
      by (rewrite length_map, length_seq; lia).
    change (s + Z.of_nat 0) with ((fun i => s + Z.of_nat i) O).
    rewrite map_nth, seq_nth by lia. reflexivity. }
  rewrite (Hn i), (Hn j) by lia. lia.
Qed.

Lemma sequence_increasing_within_instance_witness :
  NewDB fs_high_seq = Ret (Some (open_or_empty fs_high_seq)) /\
  sequenceNum (db (open_or_empty fs_high_seq)) = 2 ^ 63 /\
  snd (run gob_len_example (open_or_empty fs_high_seq)
         [OPut key_b (Some [1]); ODelete key_b])
  = map (fun i => sequenceNum (db (open_or_empty fs_high_seq)) + Z.of_nat i) (seq 1 2).
Proof.
  assert (H : NewDB fs_high_seq = Ret (Some (open_or_empty fs_high_seq)))
    by (vm_compute; reflexivity).
  split; [exact H|]. split; [vm_compute; reflexivity|].
  assert (Hl : sequenceNum (db (open_or_empty fs_high_seq))
               + Z.of_nat (length (snd (run gob_len_example (open_or_empty fs_high_seq)
                                          [OPut key_b (Some [1]); ODelete key_b])))
               < 2 ^ 64) by (vm_compute; reflexivity).
  exact (proj1 (proj2 (proj2 (sequence_increasing_within_instance gob_len_example
           fs_high_seq _ [OPut key_b (Some [1]); ODelete key_b] H Hl)))).
Defined.

(** ** C5: WAL round trip *)

Lemma le_bytes_length : forall n x, length (le_bytes n x) = n.
Proof. induction n as [|n IH]; intros x; simpl; [reflexivity | rewrite IH; reflexivity]. Qed.

Lemma firstn_app_len : forall (A : Type) (l1 l2 : list A), firstn (length l1) (l1 ++ l2) = l1.
Proof. intros A l1 l2. induction l1 as [|a l1 IH]; simpl; [reflexivity | rewrite IH; reflexivity]. Qed.

Lemma skipn_app_len : forall (A : Type) (l1 l2 : list A), skipn (length l1) (l1 ++ l2) = l2.
Proof. intros A l1 l2. induction l1 as [|a l1 IH]; simpl; [reflexivity | exact IH]. Qed.

Lemma replay_one : forall fuel C H KV rest data mx,
  length C = 4%nat -> length H = 17%nat ->
  length KV = Z.to_nat ((le_decode (firstn 4 (skipn 8 H))
                         + le_decode (firstn 4 (skipn 12 H))) mod 2 ^ 32) ->
  replay_loop (S fuel) (C ++ H ++ KV ++ rest) data mx =
  (let seqNum := le_decode (firstn 8 H) in
   let keySize := le_decode (firstn 4 (skipn 8 H)) in
   let op := nth 16 H 0 in
   let kvLen := (keySize + le_decode (firstn 4 (skipn 12 H))) mod 2 ^ 32 in
   if negb (le_decode C =? ChecksumIEEE (H ++ KV)) then ReplayErr ErrCorruption else
   let maxSeqNum' := if seqNum >? mx then seqNum else mx in
   if keySize >? kvLen then ReplayPanic else
   replay_loop fuel rest
     (map_set data (mkIK (firstn (Z.to_nat keySize) KV) seqNum op)
        (mkRV (skipn (Z.to_nat keySize) KV) op)) maxSeqNum').
Proof.
  intros fuel C H KV rest data mx HC HH HKV.
  cbn [replay_loop].
  destruct (C ++ H ++ KV ++ rest) as [|x y] eqn:E.
  { destruct C; discriminate. }
  cbv beta iota. rewrite <- E. clear x y E.
  replace ((length (C ++ H ++ KV ++ rest) <? 4)%nat) with false
    by (symmetry; apply Nat.ltb_ge; rewrite !length_app; lia).
  rewrite <- HC, firstn_app_len, skipn_app_len, HC.
  replace ((length (H ++ KV ++ rest) <? 17)%nat) with false
    by (symmetry; apply Nat.ltb_ge; rewrite length_app; lia).
  rewrite <- HH, firstn_app_len, skipn_app_len.
  rewrite <- HKV.
  replace ((length (KV ++ rest) <? length KV)%nat) with false
    by (symmetry; apply Nat.ltb_ge; rewrite length_app; lia).
  rewrite firstn_app_len, skipn_app_len. reflexivity.
Qed.

Lemma mod_mul_split : forall a b c,
  0 < b -> 0 < c -> a mod (b * c) = a mod b + b * ((a / b) mod c).
Proof.
  intros a b c Hb Hc.
  rewrite Z.mod_eq by nia. rewrite <- Z.div_div by lia.
  rewrite (Z.mod_eq a b), (Z.mod_eq (a / b) c) by lia. ring.
Qed.

Lemma le_decode_le_bytes : forall n x,
  le_decode (le_bytes n x) = x mod 2 ^ (8 * Z.of_nat n).
Proof.
  induction n as [|n IH]; intros x; cbn [le_bytes le_decode].
  - rewrite Z.mul_0_r, Z.pow_0_r, Z.mod_1_r. reflexivity.
  - rewrite IH.
    replace (Z.land x 255) with (x mod 2 ^ 8)
      by (rewrite <- Z.land_ones by lia; reflexivity).
    rewrite Z.shiftr_div_pow2 by lia.
    replace (8 * Z.of_nat (S n)) with (8 + 8 * Z.of_nat n) by lia.
    rewrite Z.pow_add_r by lia.
    rewrite mod_mul_split by (try apply Z.pow_pos_nonneg; lia).
    reflexivity.
Qed.

Lemma lxor_range : forall n a b,
  0 <= a < 2 ^ n -> 0 <= b < 2 ^ n -> 0 <= Z.lxor a b < 2 ^ n.
Proof.
  intros n a b Ha Hb.
  assert (Hx : 0 <= Z.lxor a b) by (apply Z.lxor_nonneg; lia).
  split; [exact Hx|].
  destruct (Z.eq_dec (Z.lxor a b) 0) as [E|E]; [lia|].
  assert (Hn : 0 < n).
  { destruct (Z.eq_dec a 0) as [->|Ha0].
    - rewrite Z.lxor_0_l in E.
      destruct (Z_lt_le_dec 0 n); [assumption|].
      assert (2 ^ n <= 1).
      { destruct (Z.eq_dec n 0) as [->|]; [reflexivity|].
        rewrite Z.pow_neg_r by lia. lia. }
      lia.
    - destruct (Z_lt_le_dec 0 n); [assumption|].
      assert (2 ^ n <= 1).
      { destruct (Z.eq_dec n 0) as [->|]; [reflexivity|].
        rewrite Z.pow_neg_r by lia. lia. }
      lia. }
  apply Z.log2_lt_pow2; [lia|].
  eapply Z.le_lt_trans; [apply Z.log2_lxor; lia|].
  apply Z.max_lub_lt.
  - destruct (Z.eq_dec a 0) as [->|]; [simpl; lia|].
    apply Z.log2_lt_pow2; lia.
  - destruct (Z.eq_dec b 0) as [->|]; [simpl; lia|].
    apply Z.log2_lt_pow2; lia.
Qed.

Lemma crc_shift_range : forall c, 0 <= c < 2 ^ 32 -> 0 <= crc_shift c < 2 ^ 32.
Proof.
  intros c Hc. unfold crc_shift.
  assert (Hs : 0 <= Z.shiftr c 1 < 2 ^ 32).
  { rewrite Z.shiftr_div_pow2 by lia. split.
    - apply Z.div_pos; lia.
    - apply Z.div_lt_upper_bound; lia. }
  destruct (Z.odd c); [|exact Hs].
  apply lxor_range; [exact Hs | unfold crc_poly; lia].
Qed.

Lemma iter_crc_shift_range : forall n c,
  0 <= c < 2 ^ 32 -> 0 <= Nat.iter n crc_shift c < 2 ^ 32.
Proof.
  induction n as [|n IH]; intros c Hc; simpl; [exact Hc|].
  apply crc_shift_range, IH, Hc.
Qed.

Lemma crc_byte_range : forall c b,
  0 <= c < 2 ^ 32 -> 0 <= b < 256 -> 0 <= crc_byte c b < 2 ^ 32.
Proof.
  intros c b Hc Hb. unfold crc_byte. apply iter_crc_shift_range.
  apply lxor_range; lia.
Qed.

Lemma crc_update_range : forall l c,
  0 <= c < 2 ^ 32 -> Forall (fun b => 0 <= b < 256) l ->
  0 <= crc_update c l < 2 ^ 32.
Proof.
  induction l as [|b l IH]; intros c Hc Hl; simpl; [exact Hc|].
  inversion Hl; subst. apply IH; [apply crc_byte_range|]; assumption.
Qed.

Lemma ChecksumIEEE_range : forall l,
  Forall (fun b => 0 <= b < 256) l -> 0 <= ChecksumIEEE l < 2 ^ 32.
Proof.
  intros l Hl. unfold ChecksumIEEE.
  apply lxor_range; [apply crc_update_range|]; unfold crc_mask; try lia; exact Hl.
Qed.

Lemma forallb_byte_ok : forall l,
  forallb byte_ok l = true -> Forall (fun b => 0 <= b < 256) l.
Proof.
  intros l H. apply Forall_forall. intros b Hb.
  rewrite forallb_forall in H. apply H in Hb.
  unfold byte_ok in Hb. apply andb_prop in Hb as [H1 H2].
  apply Z.leb_le in H1. apply Z.ltb_lt in H2. lia.
Qed.

Lemma wal_entry_ok_spec : forall e,
  wal_entry_ok e = true ->
  0 <= EntrySeqNum e < 2 ^ 64 /\ 0 <= Op e < 256 /\
  Forall (fun b => 0 <= b < 256) (Key e ++ sbytes (Value e)) /\
  Z.of_nat (length (Key e) + slen (Value e)) < 2 ^ 32.
Proof.
  intros e H. unfold wal_entry_ok in H.
  repeat match type of H with
         | _ && _ = true => apply andb_prop in H as [H ?]
         end.
  apply Z.leb_le in H. 
  repeat match goal with
         | Hb : (_ <? _) = true |- _ => apply Z.ltb_lt in Hb
         end.
  split; [lia|]. split.
  - match goal with Hb : byte_ok (Op e) = true |- _ =>
      unfold byte_ok in Hb; apply andb_prop in Hb as [Hop1 Hop2];
      apply Z.leb_le in Hop1; apply Z.ltb_lt in Hop2; lia end.
  - split; [|assumption]. apply Forall_app; split; apply forallb_byte_ok; assumption.
Qed.

Lemma le_bytes_range : forall n x, Forall (fun b => 0 <= b < 256) (le_bytes n x).
Proof.
  induction n as [|n IH]; intros x; simpl; constructor; [|apply IH].
  replace 255 with (Z.ones 8) by reflexivity.
  rewrite Z.land_ones by lia. apply Z.mod_pos_bound. lia.
Qed.

Lemma slen_sbytes : forall v, slen v = length (sbytes v).
Proof. intros [v|]; reflexivity. Qed.

Lemma replay_entry : forall fuel e rest data mx,
  wal_entry_ok e = true ->
  replay_loop (S fuel) (wal_record e ++ rest) data mx =
  replay_loop fuel rest (map_set data (entry_key e) (entry_value e))
    (if EntrySeqNum e >? mx then EntrySeqNum e else mx).
Proof.
  intros fuel e rest data mx Hok.
  destruct (wal_entry_ok_spec e Hok) as [Hs [Hop [Hb Hlen]]].
  set (kl := Z.of_nat (length (Key e))).
  set (vl := Z.of_nat (slen (Value e))).
  set (H := le_bytes 8 (EntrySeqNum e) ++ le_bytes 4 kl ++ le_bytes 4 vl ++ [Op e]).
  set (KV := Key e ++ sbytes (Value e)).
  assert (Eb : wal_body e = H ++ KV)
    by (unfold wal_body, H, KV; rewrite <- !app_assoc; reflexivity).
  unfold wal_record. rewrite Eb, <- !app_assoc.
  assert (E8 : firstn 8 H = le_bytes 8 (EntrySeqNum e)) by reflexivity.
  assert (Ek : firstn 4 (skipn 8 H) = le_bytes 4 kl) by reflexivity.
  assert (Ev : firstn 4 (skipn 12 H) = le_bytes 4 vl) by reflexivity.
  assert (Eop : nth 16 H 0 = Op e) by reflexivity.
  assert (Hkl : le_decode (le_bytes 4 kl) = kl)
    by (rewrite le_decode_le_bytes, Z.mod_small; [reflexivity | unfold kl; lia]).
  assert (Hvl : le_decode (le_bytes 4 vl) = vl)
    by (rewrite le_decode_le_bytes, Z.mod_small; [reflexivity | unfold vl; lia]).
  assert (Hsum : (kl + vl) mod 2 ^ 32 = kl + vl)
    by (apply Z.mod_small; unfold kl, vl; lia).
  assert (HKV : length KV = Z.to_nat (kl + vl))
    by (unfold KV, kl, vl; rewrite length_app, <- slen_sbytes; lia).
  rewrite replay_one.
  - cbv zeta. rewrite E8, Ek, Ev, Eop, Hkl, Hvl, Hsum.
    rewrite le_decode_le_bytes, Z.mod_small.
    2:{ apply ChecksumIEEE_range. apply Forall_app. split; [|exact Hb].
        unfold H. repeat (apply Forall_app; split); try apply le_bytes_range.
        constructor; [exact Hop | constructor]. }
    rewrite Z.eqb_refl. cbv [negb].
    rewrite le_decode_le_bytes, Z.mod_small by (simpl; lia).
    replace (kl >? kl + vl) with false
      by (symmetry; rewrite Z.gtb_ltb; apply Z.ltb_ge; unfold vl; lia).
    unfold kl. rewrite Nat2Z.id. unfold KV.
    rewrite firstn_app_len, skipn_app_len. reflexivity.
  - apply le_bytes_length.
  - reflexivity.
  - rewrite Ek, Ev, Hkl, Hvl, Hsum. exact HKV.
Qed.

Lemma wal_file_concat : forall es, wal_file es = concat (map wal_record es).
Proof.
  intros es. unfold wal_file.
  assert (G : forall acc, fold_left WAL_Write es acc = acc ++ concat (map wal_record es)).
  { induction es as [|e es IH]; intros acc; cbn [fold_left map concat].
    - rewrite app_nil_r. reflexivity.
    - rewrite IH. unfold WAL_Write. rewrite app_assoc. reflexivity. }
  apply G.
Qed.

Lemma replay_entries : forall es fuel rest data mx,
  forallb wal_entry_ok es = true ->
  replay_loop (length es + fuel) (concat (map wal_record es) ++ rest) data mx =
  replay_loop fuel rest
    (fold_left (fun d e => map_set d (entry_key e) (entry_value e)) es data)
    (fold_left (fun m e => if EntrySeqNum e >? m then EntrySeqNum e else m) es mx).
Proof.
  induction es as [|e es IH]; intros fuel rest data mx Hok; [reflexivity|].
  simpl in Hok. apply andb_prop in Hok as [He Hes].
  cbn [length map concat fold_left]. rewrite <- app_assoc.
  change (S (length es) + fuel)%nat with (S (length es + fuel)).
  rewrite replay_entry by exact He. apply IH. exact Hes.
Qed.

Lemma replay_loop_nil : forall fuel data mx, replay_loop fuel [] data mx = ReplayOk data mx.
Proof. intros [|fuel] data mx; reflexivity. Qed.

Lemma wal_records_length : forall es, (length es <= length (concat (map wal_record es)))%nat.
Proof.
  induction es as [|e es IH]; cbn [length map concat]; [lia|].
  rewrite length_app. unfold wal_record at 1. rewrite length_app, le_bytes_length. lia.
Qed.

Lemma ik_eqb_refl : forall k, ik_eqb k k = true.
Proof.
  intros [u s t]. unfold ik_eqb. simpl. rewrite !Z.eqb_refl, !andb_true_r.
  induction u as [|b u IH]; simpl; [reflexivity|]. rewrite Z.eqb_refl. exact IH.
Qed.

Lemma ik_eqb_seq : forall a b, ik_eqb a b = true -> SeqNum a = SeqNum b.
Proof.
  intros a b H. unfold ik_eqb in H. apply andb_prop in H as [H _].
  apply andb_prop in H as [_ H]. apply Z.eqb_eq. exact H.
Qed.

Lemma filter_id : forall (A : Type) (f : A -> bool) l,
  (forall x, In x l -> f x = true) -> filter f l = l.
Proof.
  intros A f l H. induction l as [|x l IH]; simpl; [reflexivity|].
  rewrite H by (left; reflexivity). rewrite IH; [reflexivity|].
  intros y Hy. apply H. right. exact Hy.
Qed.

Lemma NoDup_map_inj : forall (A B : Type) (f : A -> B) l a b,
  NoDup (map f l) -> In a l -> In b l -> f a = f b -> a = b.
Proof.
  intros A B f l a b. induction l as [|x l IH]; intros Hn Ha Hb Hf; [destruct Ha|].
  simpl in Hn. inversion Hn as [|y r Hx Hr]; subst.
  destruct Ha as [<-|Ha]; destruct Hb as [<-|Hb]; try reflexivity.
  - exfalso. apply Hx. rewrite Hf. apply in_map. exact Hb.
  - exfalso. apply Hx. rewrite <- Hf. apply in_map. exact Ha.
  - apply IH; assumption.
Qed.

Lemma fold_set_In : forall es acc,
  (forall k v, In (k, v) acc -> forall e, In e es -> SeqNum k <> EntrySeqNum e) ->
  NoDup (map EntrySeqNum es) ->
  forall k v,
    In (k, v) (fold_left (fun d e => map_set d (entry_key e) (entry_value e)) es acc)
    <-> In (k, v) acc \/ exists e, In e es /\ k = entry_key e /\ v = entry_value e.
Proof.
  induction es as [|e es IH]; intros acc Hacc Hn k v; simpl.
  - split; [intros H; left; exact H|]. intros [H|[e [[] _]]]. exact H.
  - inversion Hn as [|x r Hx Hr]; subst.
    assert (Hf : filter (fun p => negb (ik_eqb (fst p) (entry_key e))) acc = acc).
    { apply filter_id. intros [k' v'] Hin. simpl.
      destruct (ik_eqb k' (entry_key e)) eqn:E; [|reflexivity].
      apply ik_eqb_seq in E. exfalso. apply (Hacc k' v' Hin e); [left; reflexivity|].
      exact E. }
    unfold map_set. rewrite Hf. rewrite IH; [|clear k v|exact Hr].
    + split.
      * intros [[H|H]|[e' [He' [-> ->]]]].
        -- injection H as <- <-. right. exists e. split; [left|split]; reflexivity.
        -- left. exact H.
        -- right. exists e'. split; [right; exact He'|split; reflexivity].
      * intros [H|[e' [[<-|He'] [-> ->]]]].
        -- left. right. exact H.
        -- left. left. reflexivity.
        -- right. exists e'. split; [exact He'|split; reflexivity].
    + intros k v [H|H] e' He'.
      * injection H as <- <-. simpl. intros E. apply Hx. rewrite E.
        apply in_map. exact He'.
      * apply (Hacc k v H e'). right. exact He'.
Qed.

Lemma map_get_In : forall m k v,
  In (k, v) m ->
  (forall k' v', In (k', v') m -> ik_eqb k' k = true -> v' = v) ->
  map_get m k = Some v.
Proof.
  induction m as [|[k0 v0] m IH]; intros k v Hin Hu; [destruct Hin|].
  simpl. destruct (ik_eqb k0 k) eqn:E.
  - f_equal. apply (Hu k0 v0); [left; reflexivity | exact E].
  - destruct Hin as [H|H].
    + injection H as -> ->. rewrite ik_eqb_refl in E. discriminate.
    + apply IH; [exact H|]. intros k' v' H' E'. apply (Hu k' v'); [right|]; assumption.
Qed.

Lemma fold_max : forall es m0,
  let r := fold_left (fun m e => if EntrySeqNum e >? m then EntrySeqNum e else m) es m0 in
  m0 <= r /\ (forall e, In e es -> EntrySeqNum e <= r) /\
  (r = m0 \/ exists e, In e es /\ EntrySeqNum e = r).
Proof.
  induction es as [|e es IH]; intros m0 r; simpl in r.
  - split; [lia|]. split; [intros e []|left; reflexivity].
  - destruct (IH (if EntrySeqNum e >? m0 then EntrySeqNum e else m0)) as [H1 [H2 H3]].
    fold r in H1, H2, H3.
    assert (Hm : m0 <= (if EntrySeqNum e >? m0 then EntrySeqNum e else m0)
                 /\ EntrySeqNum e <= (if EntrySeqNum e >? m0 then EntrySeqNum e else m0)).
    { destruct (EntrySeqNum e >? m0) eqn:E;
        [rewrite Z.gtb_lt in E | rewrite Z.gtb_ltb, Z.ltb_ge in E]; lia. }
    split; [lia|]. split.
    + intros e' [<-|He']; [lia | apply H2; exact He'].
    + destruct H3 as [H3|[e' [He' H3]]].
      * destruct (EntrySeqNum e >? m0); [right; exists e; split; [left; reflexivity | lia]
                                        | left; lia].
      * right. exists e'. split; [right; exact He' | exact H3].
Qed.

(** WAL round trip within the sizes [Replay] can read back.  [Replay] of a
    missing file gives the empty map and 0.  For a log written by
    [WAL.Write] from entries with distinct sequence numbers, each
    representable in Go ([wal_entry_ok]: sequence below 2^64, byte-valued
    op, key and value) and with len(key)+len(value) below 2^32, [Replay]
    succeeds with a map whose bindings are exactly the entries, keyed by
    internal key with their (value, op), and with the maximum sequence
    number of the entries (0 when there are none). *)
Theorem wal_round_trip :
  (forall fs p, fs_get fs p = None -> Replay fs p = ReplayOk [] 0) /\
  (forall fs p es,
     fs_get fs p = Some (FWal (wal_file es)) ->
     forallb wal_entry_ok es = true ->
     NoDup (map EntrySeqNum es) ->
     exists rd mx,
       Replay fs p = ReplayOk rd mx /\
       (forall k v, In (k, v) rd <->
                    exists e, In e es /\ k = entry_key e /\ v = entry_value e) /\
       (forall e, In e es -> map_get rd (entry_key e) = Some (entry_value e)) /\
       (forall e, In e es -> EntrySeqNum e <= mx) /\
       ((es = [] /\ mx = 0) \/ exists e, In e es /\ EntrySeqNum e = mx)).
Proof.
  split.
  - intros fs p H. unfold Replay. rewrite H. reflexivity.
  - intros fs p es Hf Hok Hnd. unfold Replay. rewrite Hf. unfold replay_bytes.
    rewrite wal_file_concat.
    set (n := length (concat (map wal_record es))).
    assert (Hn : (length es <= n)%nat) by apply wal_records_length.
    replace (S n) with (length es + (S n - length es))%nat by lia.
    rewrite <- (app_nil_r (concat (map wal_record es))).
    rewrite replay_entries by exact Hok. rewrite replay_loop_nil.
    set (M := fold_left (fun d e => map_set d (entry_key e) (entry_value e)) es []).
    assert (HM : forall k v, In (k, v) M <->
                 exists e, In e es /\ k = entry_key e /\ v = entry_value e).
    { intros k v. unfold M. rewrite fold_set_In; [|intros ? ? []|exact Hnd].
      split; [intros [[]|H]; exact H | intros H; right; exact H]. }
    destruct (fold_max es 0) as [H0 [Hle Hex]].
    exists M, (fold_left (fun m e => if EntrySeqNum e >? m then EntrySeqNum e else m) es 0).
    split; [reflexivity|]. split; [exact HM|]. split; [|split; [exact Hle|]].
    + intros e He. apply map_get_In.
      * apply HM. exists e. split; [exact He | split; reflexivity].
      * intros k' v' Hin E. apply HM in Hin as [e' [He' [-> ->]]].
        apply ik_eqb_seq in E. simpl in E.
        rewrite (NoDup_map_inj _ _ EntrySeqNum es e' e Hnd He' He E). reflexivity.
    + destruct es as [|e es']; [left; split; reflexivity|]. right.
      destruct Hex as [Hex|Hex]; [|exact Hex].
      exists e. split; [left; reflexivity|].
      assert (Hs : 0 <= EntrySeqNum e).
      { simpl in Hok. apply andb_prop in Hok as [He _].
        apply wal_entry_ok_spec in He. lia. }
      specialize (Hle e (or_introl eq_refl)). lia.
Qed.

Lemma wal_round_trip_witness :
  exists rd mx,
    Replay [(PActiveWal, FWal (wal_file wal_example_entries))] PActiveWal
    = ReplayOk rd mx /\
    (forall e, In e wal_example_entries ->
       map_get rd (entry_key e) = Some (entry_value e)).
Proof.
  assert (H1 : fs_get [(PActiveWal, FWal (wal_file wal_example_entries))] PActiveWal
               = Some (FWal (wal_file wal_example_entries))) by reflexivity.
  assert (H2 : forallb wal_entry_ok wal_example_entries = true) by (vm_compute; reflexivity).
  assert (H3 : NoDup (map EntrySeqNum wal_example_entries)).
  { cbn. repeat constructor; cbn; intuition discriminate. }
  destruct (proj2 wal_round_trip _ _ _ H1 H2 H3) as [rd [mx [Hr [_ [Hg _]]]]].
  exists rd, mx. split; [exact Hr | exact Hg].
Defined.

Lemma replay_wrapped_record : forall s op K V,
  Z.of_nat (length K) = 2 ^ 31 -> Z.of_nat (slen V) = 2 ^ 31 ->
  match replay_bytes (wal_file [mkEntry op K V s]) with
  | ReplayOk _ _ => False
  | _ => True
  end.
Proof.
  intros s op K V HK HV.
  unfold replay_bytes, wal_file. cbn [fold_left]. unfold WAL_Write, wal_record, wal_body.
  cbn [Key Value EntrySeqNum Op app]. rewrite HK, HV.
  set (C := le_bytes 4 _).
  set (Hd := le_bytes 8 s ++ le_bytes 4 (2 ^ 31) ++ le_bytes 4 (2 ^ 31) ++ [op]).
  assert (E : C ++ le_bytes 8 s ++ le_bytes 4 (2 ^ 31) ++ le_bytes 4 (2 ^ 31)
                ++ op :: K ++ sbytes V
              = C ++ Hd ++ [] ++ (K ++ sbytes V))
    by (unfold Hd; rewrite <- !app_assoc; reflexivity).
  rewrite E.
  assert (Hk : le_decode (firstn 4 (skipn 8 Hd)) = 2 ^ 31) by reflexivity.
  assert (Hv : le_decode (firstn 4 (skipn 12 Hd)) = 2 ^ 31) by reflexivity.
  rewrite replay_one.
  - cbv zeta. rewrite Hk, Hv.
    destruct (negb _); [exact I|].
    replace (2 ^ 31 >? (2 ^ 31 + 2 ^ 31) mod 2 ^ 32) with true by reflexivity.
    exact I.
  - apply le_bytes_length.
  - unfold Hd. rewrite !length_app, !le_bytes_length. reflexivity.
  - rewrite Hk, Hv. reflexivity.
Qed.

(** C5.  A one-entry log whose key and value are 2^31 bytes each is written
    by [WAL.Write] (which sizes the record as an [int]), but [Replay] does
    not return a recovered mapping for it: its [uint32] sum
    [keySize+valueSize] wraps to 0. *)
Lemma wal_oversized_entry_rejected :
  match replay_bytes (wal_file [huge_entry]) with
  | ReplayOk _ _ => False
  | _ => True
  end.
Proof.
  unfold huge_entry. apply replay_wrapped_record; unfold slen; cbv beta iota;
    rewrite repeat_length, Z2Nat.id; [reflexivity | lia | reflexivity | lia].
Qed.

(** ** C6: checksum of WAL records *)

Lemma lxor_cancel_r : forall a b c, Z.lxor a c = Z.lxor b c -> a = b.
Proof.
  intros a b c H.
  rewrite <- (Z.lxor_0_r a), <- (Z.lxor_0_r b), <- (Z.lxor_nilpotent c).
  rewrite <- !Z.lxor_assoc, H. reflexivity.
Qed.

Lemma lxor_cancel_l : forall a b c, Z.lxor c a = Z.lxor c b -> a = b.
Proof.
  intros a b c H. rewrite !(Z.lxor_comm c) in H. exact (lxor_cancel_r _ _ _ H).
Qed.

Lemma testbit_31_small : forall x, 0 <= x < 2 ^ 31 -> Z.testbit x 31 = false.
Proof.
  intros x Hx.
  assert (H := Z.testbit_spec' x 31 ltac:(lia)).
  rewrite Z.div_small in H by lia. rewrite Z.mod_0_l in H by lia.
  destruct (Z.testbit x 31); [discriminate | reflexivity].
Qed.

Lemma crc_shift_inj : forall a b,
  0 <= a < 2 ^ 32 -> 0 <= b < 2 ^ 32 -> crc_shift a = crc_shift b -> a = b.
Proof.
  intros a b Ha Hb H. unfold crc_shift in H.
  assert (Hsa : 0 <= Z.shiftr a 1 < 2 ^ 31)
    by (rewrite Z.shiftr_div_pow2 by lia; split;
        [apply Z.div_pos | apply Z.div_lt_upper_bound]; lia).
  assert (Hsb : 0 <= Z.shiftr b 1 < 2 ^ 31)
    by (rewrite Z.shiftr_div_pow2 by lia; split;
        [apply Z.div_pos | apply Z.div_lt_upper_bound]; lia).
  assert (Hp : Z.testbit crc_poly 31 = true) by reflexivity.
  rewrite (Z.div2_odd a), (Z.div2_odd b), !Z.div2_spec.
  destruct (Z.odd a) eqn:Oa, (Z.odd b) eqn:Ob.
  - apply lxor_cancel_r in H. rewrite H. reflexivity.
  - exfalso. apply (f_equal (fun x => Z.testbit x 31)) in H.
    rewrite Z.lxor_spec, Hp, !testbit_31_small in H by assumption. discriminate.
  - exfalso. apply (f_equal (fun x => Z.testbit x 31)) in H.
    rewrite Z.lxor_spec, Hp, !testbit_31_small in H by assumption. discriminate.
  - rewrite H. reflexivity.
Qed.

Lemma iter_crc_shift_inj : forall n a b,
  0 <= a < 2 ^ 32 -> 0 <= b < 2 ^ 32 ->
  Nat.iter n crc_shift a = Nat.iter n crc_shift b -> a = b.
Proof.
  induction n as [|n IH]; intros a b Ha Hb H; simpl in H; [exact H|].
  apply IH; [assumption | assumption |].
  apply crc_shift_inj; try (apply iter_crc_shift_range; assumption). exact H.
Qed.

Lemma crc_byte_inj_c : forall a a' x,
  0 <= a < 2 ^ 32 -> 0 <= a' < 2 ^ 32 -> 0 <= x < 256 ->
  crc_byte a x = crc_byte a' x -> a = a'.
Proof.
  intros a a' x Ha Ha' Hx H. unfold crc_byte in H.
  apply iter_crc_shift_inj in H; try (apply lxor_range; lia).
  exact (lxor_cancel_r _ _ _ H).
Qed.

Lemma crc_byte_inj_b : forall c x y,
  0 <= c < 2 ^ 32 -> 0 <= x < 256 -> 0 <= y < 256 ->
  crc_byte c x = crc_byte c y -> x = y.
Proof.
  intros c x y Hc Hx Hy H. unfold crc_byte in H.
  apply iter_crc_shift_inj in H; try (apply lxor_range; lia).
  exact (lxor_cancel_l _ _ _ H).
Qed.

Lemma crc_update_inj_c : forall l a a',
  0 <= a < 2 ^ 32 -> 0 <= a' < 2 ^ 32 -> Forall (fun b => 0 <= b < 256) l ->
  crc_update a l = crc_update a' l -> a = a'.
Proof.
  induction l as [|x l IH]; intros a a' Ha Ha' Hl H; simpl in H; [exact H|].
  inversion Hl as [|y r Hx Hr]; subst.
  apply (crc_byte_inj_c a a' x); try assumption.
  apply IH; try assumption; apply crc_byte_range; assumption.
Qed.

Lemma ChecksumIEEE_one_byte : forall p x y s,
  Forall (fun b => 0 <= b < 256) p -> Forall (fun b => 0 <= b < 256) s ->
  0 <= x < 256 -> 0 <= y < 256 -> x <> y ->
  ChecksumIEEE (p ++ x :: s) <> ChecksumIEEE (p ++ y :: s).
Proof.
  intros p x y s Hp Hs Hx Hy Hxy H. unfold ChecksumIEEE in H.
  apply lxor_cancel_r in H. unfold crc_update in H.
  rewrite !fold_left_app in H. cbn [fold_left] in H.
  fold (crc_update (crc_byte (crc_update crc_mask p) x) s) in H.
  fold (crc_update (crc_byte (crc_update crc_mask p) y) s) in H.
  assert (Hc : 0 <= crc_update crc_mask p < 2 ^ 32)
    by (apply crc_update_range; [unfold crc_mask; lia | exact Hp]).
  apply crc_update_inj_c in H; try (apply crc_byte_range; assumption); [|exact Hs].
  apply crc_byte_inj_b in H; try assumption. contradiction.
Qed.

Lemma flip_bit_length : forall l j b, length (flip_bit l j b) = length l.
Proof. induction l as [|x l IH]; intros [|j] b; simpl; try rewrite IH; reflexivity. Qed.

Lemma flip_bit_app_r : forall A B n k b,
  length A = n -> flip_bit (A ++ B) (n + k) b = A ++ flip_bit B k b.
Proof.
  induction A as [|x A IH]; intros B n k b H; simpl in H; subst n; [reflexivity|].
  simpl. rewrite IH by reflexivity. reflexivity.
Qed.

Lemma flip_bit_app_l : forall A B j b,
  (j < length A)%nat -> flip_bit (A ++ B) j b = flip_bit A j b ++ B.
Proof.
  induction A as [|x A IH]; intros B [|j] b H; simpl in *; try lia; [reflexivity|].
  rewrite IH by lia. reflexivity.
Qed.

Lemma skipn_flip_lt : forall l n j b,
  (j < n)%nat -> skipn n (flip_bit l j b) = skipn n l.
Proof.
  induction l as [|x l IH]; intros [|n] [|j] b H; simpl; try lia; try reflexivity.
  apply IH. lia.
Qed.

Lemma skipn_flip_ge : forall l n j b,
  (n <= j)%nat -> skipn n (flip_bit l j b) = flip_bit (skipn n l) (j - n) b.
Proof.
  induction l as [|x l IH]; intros [|n] [|j] b H; simpl; try lia; try reflexivity.
  apply IH. lia.
Qed.

Lemma firstn_flip_ge : forall l n j b,
  (n <= j)%nat -> firstn n (flip_bit l j b) = firstn n l.
Proof.
  induction l as [|x l IH]; intros [|n] [|j] b H; simpl; try lia; try reflexivity.
  rewrite IH by lia. reflexivity.
Qed.

Lemma flip_bit_split : forall l j b,
  (j < length l)%nat ->
  flip_bit l j b = firstn j l ++ Z.lxor (nth j l 0) (2 ^ b) :: skipn (S j) l /\
  l = firstn j l ++ nth j l 0 :: skipn (S j) l.
Proof.
  induction l as [|x l IH]; intros [|j] b H; simpl in *; try lia.
  - split; reflexivity.
  - destruct (IH j b ltac:(lia)) as [H1 H2]. rewrite H1 at 1.
    split; [reflexivity | f_equal; exact H2].
Qed.

Lemma firstn_skipn_firstn : forall (A : Type) (l : list A) n m k,
  (n + m <= k)%nat -> firstn m (skipn n (firstn k l)) = firstn m (skipn n l).
Proof.
  intros A l n m k H.
  rewrite skipn_firstn_comm, firstn_firstn. f_equal. lia.
Qed.

Lemma skipn_nth : forall (A : Type) (l : list A) i d,
  (i < length l)%nat -> skipn i l = nth i l d :: skipn (S i) l.
Proof.
  induction l as [|x l IH]; intros [|i] d H; simpl in *; try lia; [reflexivity|].
  apply IH. lia.
Qed.

Lemma wal_body_range : forall e,
  wal_entry_ok e = true -> Forall (fun b => 0 <= b < 256) (wal_body e).
Proof.
  intros e He. destruct (wal_entry_ok_spec e He) as [_ [Hop [Hb _]]].
  unfold wal_body. repeat (apply Forall_app; split); try apply le_bytes_range.
  all: apply Forall_app in Hb as [Hk Hv]; try assumption.
  constructor; [exact Hop | constructor].
Qed.

Lemma replay_bad_checksum : forall fuel e body' rest data mx,
  wal_entry_ok e = true ->
  length body' = length (wal_body e) ->
  firstn 4 (skipn 8 body') = firstn 4 (skipn 8 (wal_body e)) ->
  firstn 4 (skipn 12 body') = firstn 4 (skipn 12 (wal_body e)) ->
  ChecksumIEEE body' <> ChecksumIEEE (wal_body e) ->
  replay_loop (S fuel) (le_bytes 4 (ChecksumIEEE (wal_body e)) ++ body' ++ rest) data mx
  = ReplayErr ErrCorruption.
Proof.
  intros fuel e body' rest data mx Hok Hlen Hk Hv Hc.
  destruct (wal_entry_ok_spec e Hok) as [Hs [Hop [Hb Hl]]].
  assert (Hbl : length (wal_body e)
                = (17 + length (Key e) + length (sbytes (Value e)))%nat).
  { unfold wal_body. rewrite !length_app, !le_bytes_length. simpl. lia. }
  rewrite <- (firstn_skipn 17 body'), <- app_assoc.
  assert (Ek : firstn 4 (skipn 8 (wal_body e))
               = le_bytes 4 (Z.of_nat (length (Key e)))) by reflexivity.
  assert (Ev : firstn 4 (skipn 12 (wal_body e))
               = le_bytes 4 (Z.of_nat (slen (Value e)))) by reflexivity.
  assert (Hk' : le_decode (firstn 4 (skipn 8 (firstn 17 body')))
                = Z.of_nat (length (Key e))).
  { rewrite firstn_skipn_firstn by lia. rewrite Hk, Ek, le_decode_le_bytes.
    apply Z.mod_small. lia. }
  assert (Hv' : le_decode (firstn 4 (skipn 12 (firstn 17 body')))
                = Z.of_nat (slen (Value e))).
  { rewrite firstn_skipn_firstn by lia. rewrite Hv, Ev, le_decode_le_bytes.
    apply Z.mod_small. lia. }
  rewrite replay_one.
  - cbv zeta. rewrite firstn_skipn.
    rewrite le_decode_le_bytes, Z.mod_small
      by (apply ChecksumIEEE_range, wal_body_range, Hok).
    replace (ChecksumIEEE (wal_body e) =? ChecksumIEEE body') with false
      by (symmetry; apply Z.eqb_neq; congruence).
    reflexivity.
  - apply le_bytes_length.
  - rewrite length_firstn. lia.
  - rewrite Hk', Hv', Z.mod_small by lia. rewrite length_skipn, Hlen, Hbl, <- slen_sbytes.
    lia.
Qed.

(** C6 (amended).  In a log written by [WAL.Write] from representable
    entries whose len(key)+len(value) is below 2^32 ([wal_entry_ok]),
    flipping any bit of a record body outside its key-size and value-size
    fields (body offsets 8 to 15) makes [Replay] fail with a corruption
    error. *)
Theorem wal_body_flip_detected : forall es i j b,
  forallb wal_entry_ok es = true ->
  (i < length es)%nat ->
  (j < length (wal_body (nth i es (mkEntry 0 [] None 0))))%nat ->
  (j < 8 \/ 16 <= j)%nat ->
  0 <= b < 8 ->
  replay_bytes (flip_bit (wal_file es) (length (wal_file (firstn i es)) + 4 + j) b)
  = ReplayErr ErrCorruption.
Proof.
  intros es i j b Hok Hi Hj Hjr Hb.
  set (d := mkEntry 0 [] None 0) in *. set (e := nth i es d) in *.
  assert (He : wal_entry_ok e = true)
    by (rewrite forallb_forall in Hok; apply Hok, nth_In, Hi).
  set (pre := firstn i es). set (post := skipn (S i) es).
  assert (Hes : es = pre ++ e :: post)
    by (unfold pre, post, e; rewrite <- (skipn_nth _ es i d Hi); symmetry;
        apply firstn_skipn).
  assert (Hpre : forallb wal_entry_ok pre = true)
    by (rewrite Hes, forallb_app in Hok; apply andb_prop in Hok as [H _]; exact H).
  rewrite !wal_file_concat.
  assert (Hc : concat (map wal_record es)
               = concat (map wal_record pre) ++ wal_record e ++ concat (map wal_record post))
    by (rewrite Hes at 1; rewrite map_app, concat_app; reflexivity).
  assert (Hr : wal_record e = le_bytes 4 (ChecksumIEEE (wal_body e)) ++ wal_body e)
    by reflexivity.
  rewrite Hc, Hr, <- Nat.add_assoc, flip_bit_app_r by reflexivity.
  rewrite <- app_assoc, (flip_bit_app_r (le_bytes 4 _)) by apply le_bytes_length.
  rewrite flip_bit_app_l by exact Hj.
  unfold replay_bytes.
  set (n := length _).
  assert (Hn : (length pre <= n)%nat)
    by (unfold n; rewrite length_app; pose proof (wal_records_length pre); lia).
  replace (S n) with (length pre + S (n - length pre))%nat by lia.
  rewrite replay_entries by exact Hpre.
  apply replay_bad_checksum.
  - exact He.
  - apply flip_bit_length.
  - destruct Hjr as [Hjr|Hjr].
    + rewrite skipn_flip_lt by lia. reflexivity.
    + rewrite skipn_flip_ge, firstn_flip_ge by lia. reflexivity.
  - destruct Hjr as [Hjr|Hjr].
    + rewrite skipn_flip_lt by lia. reflexivity.
    + rewrite skipn_flip_ge, firstn_flip_ge by lia. reflexivity.
  - destruct (flip_bit_split (wal_body e) j b Hj) as [F1 F2].
    assert (Hbr := wal_body_range e He). rewrite F2 in Hbr.
    apply Forall_app in Hbr as [Hp Hs]. apply Forall_cons_iff in Hs as [Hx Hs'].
    assert (Hpow : 1 <= 2 ^ b < 256).
    { assert (0 < 2 ^ b) by (apply Z.pow_pos_nonneg; lia).
      assert (2 ^ b < 2 ^ 8) by (apply Z.pow_lt_mono_r; lia).
      change (2 ^ 8) with 256 in *. lia. }
    rewrite F1.
    assert (Ec : ChecksumIEEE (wal_body e) = ChecksumIEEE (firstn j (wal_body e)
                   ++ nth j (wal_body e) 0 :: skipn (S j) (wal_body e)))
      by (f_equal; exact F2).
    rewrite Ec.
    apply ChecksumIEEE_one_byte; try assumption.
    + apply (lxor_range 8); lia.
    + intros E. assert (E' : Z.lxor (nth j (wal_body e) 0) (2 ^ b)
                             = Z.lxor (nth j (wal_body e) 0) 0)
        by (rewrite Z.lxor_0_r; exact E).
      apply lxor_cancel_l in E'. lia.
Qed.


Lemma wal_body_flip_detected_witness :
  replay_bytes (flip_bit (wal_file wal_example_entries)
                  (length (wal_file (firstn 1 wal_example_entries)) + 4 + 17) 0)
  = ReplayErr ErrCorruption.
Proof.
  apply wal_body_flip_detected.
  - vm_compute. reflexivity.
  - apply Nat.ltb_lt. vm_compute. reflexivity.
  - apply Nat.ltb_lt. vm_compute. reflexivity.
  - right. apply Nat.leb_le. vm_compute. reflexivity.
  - lia.
Defined.

(* ================================================================== *)
(** * Further properties *)

(** ** Internal keys and the memtable *)
Lemma bytes_compare_refl : forall a, bytes_compare a a = Eq.
Proof. induction a as [|x a IH]; simpl; [reflexivity|]. rewrite Z.compare_refl. exact IH. Qed.

Lemma bytes_compare_eq : forall a b, bytes_compare a b = Eq -> a = b.
Proof.
  induction a as [|x a IH]; intros [|y b] H; simpl in H; try discriminate; [reflexivity|].
  destruct (Z.compare_spec x y); try discriminate. subst. f_equal. apply IH, H.
Qed.

Lemma bytes_compare_antisym : forall a b, bytes_compare b a = CompOpp (bytes_compare a b).
Proof.
  induction a as [|x a IH]; intros [|y b]; simpl; try reflexivity.
  rewrite (Z.compare_antisym x y).
  destruct (Z.compare x y); simpl; [apply IH | reflexivity | reflexivity].
Qed.

Lemma bytes_compare_trans : forall a b c,
  bytes_compare a b = Lt -> bytes_compare b c = Lt -> bytes_compare a c = Lt.
Proof.
  induction a as [|x a IH]; intros [|y b] [|z c] H1 H2; simpl in *; try discriminate;
    try reflexivity.
  destruct (Z.compare_spec x y), (Z.compare_spec y z); try discriminate; subst.
  all: try (rewrite Z.compare_refl; apply (IH b c); assumption).
  all: rewrite (proj2 (Z.compare_lt_iff _ _)) by lia; reflexivity.
Qed.

Lemma bytes_eqb_eq : forall a b, bytes_eqb a b = true <-> a = b.
Proof.
  induction a as [|x a IH]; intros [|y b]; simpl; split; intros H;
    try discriminate; try reflexivity.
  - apply andb_prop in H as [H1 H2]. apply Z.eqb_eq in H1. apply IH in H2. subst. reflexivity.
  - injection H as <- <-. rewrite Z.eqb_refl. simpl. apply IH. reflexivity.
Qed.

Lemma bytes_eqb_neq : forall a b, bytes_eqb a b = false <-> a <> b.
Proof.
  intros a b. rewrite <- bytes_eqb_eq. destruct (bytes_eqb a b); split; congruence.
Qed.

Lemma Compare_antisym : forall a b, Compare b a = - Compare a b.
Proof.
  intros a b. unfold Compare. rewrite (bytes_compare_antisym (UserKey a)).
  destruct (bytes_compare (UserKey a) (UserKey b)); simpl; try reflexivity.
  destruct (SeqNum b >? SeqNum a) eqn:E1, (SeqNum b <? SeqNum a) eqn:E2,
    (SeqNum a >? SeqNum b) eqn:E3, (SeqNum a <? SeqNum b) eqn:E4; zbool; lia.
Qed.

Lemma Compare_eq0 : forall a b,
  Compare a b = 0 <-> UserKey a = UserKey b /\ SeqNum a = SeqNum b.
Proof.
  intros a b. unfold Compare.
  destruct (bytes_compare (UserKey a) (UserKey b)) eqn:C.
  - apply bytes_compare_eq in C. rewrite C.
    destruct (SeqNum a >? SeqNum b) eqn:E1, (SeqNum a <? SeqNum b) eqn:E2; zbool;
      split; intros H; try lia; try (split; [reflexivity | lia]); destruct H; lia.
  - split; intros H; [discriminate|]. destruct H as [H _].
    rewrite H, bytes_compare_refl in C. discriminate.
  - split; intros H; [discriminate|]. destruct H as [H _].
    rewrite H, bytes_compare_refl in C. discriminate.
Qed.

Lemma Compare_neg : forall a b,
  Compare a b < 0 <->
  bytes_compare (UserKey a) (UserKey b) = Lt \/
  (UserKey a = UserKey b /\ SeqNum b < SeqNum a).
Proof.
  intros a b. unfold Compare.
  destruct (bytes_compare (UserKey a) (UserKey b)) eqn:C.
  - apply bytes_compare_eq in C. rewrite C.
    destruct (SeqNum a >? SeqNum b) eqn:E1, (SeqNum a <? SeqNum b) eqn:E2; zbool;
      split; intros H; try lia; try (right; split; [reflexivity | lia]);
      destruct H as [H|[_ H]]; try discriminate; lia.
  - split; intros _; [left; reflexivity | lia].
  - split; intros H; [lia|]. destruct H as [H|[H _]]; [discriminate|].
    rewrite H, bytes_compare_refl in C. discriminate.
Qed.

Lemma Compare_range : forall a b, Compare a b = -1 \/ Compare a b = 0 \/ Compare a b = 1.
Proof.
  intros a b. unfold Compare.
  destruct (bytes_compare _ _); [|left; reflexivity | right; right; reflexivity].
  destruct (SeqNum a >? SeqNum b); [left; reflexivity|].
  destruct (SeqNum a <? SeqNum b); [right; right | right; left]; reflexivity.
Qed.

Lemma Compare_lt_trans : forall a b c, Compare a b < 0 -> Compare b c < 0 -> Compare a c < 0.
Proof.
  intros a b c H1 H2. apply Compare_neg in H1, H2. apply Compare_neg.
  destruct H1 as [H1|[H1 H1']], H2 as [H2|[H2 H2']].
  - left. eapply bytes_compare_trans; eassumption.
  - left. rewrite <- H2. exact H1.
  - left. rewrite H1. exact H2.
  - right. split; [congruence | lia].
Qed.

Lemma Compare_eq0_l : forall a b c, Compare a b = 0 -> Compare a c = Compare b c.
Proof.
  intros a b c H. apply Compare_eq0 in H as [H1 H2]. unfold Compare. rewrite H1, H2. reflexivity.
Qed.

Lemma Compare_eq0_r : forall a b c, Compare b c = 0 -> Compare a b = Compare a c.
Proof.
  intros a b c H. rewrite (Compare_antisym b a), (Compare_antisym c a).
  rewrite (Compare_eq0_l b c a H). reflexivity.
Qed.

Lemma Compare_refl : forall a, Compare a a = 0.
Proof. intros a. apply Compare_eq0. split; reflexivity. Qed.


Lemma Compare_lt_le_trans : forall a b c, Compare a b < 0 -> Compare b c <= 0 -> Compare a c < 0.
Proof.
  intros a b c H1 H2. destruct (Z.eq_dec (Compare b c) 0) as [E|E].
  - rewrite Compare_antisym in E |- *. rewrite Compare_antisym in H1.
    rewrite (Compare_eq0_l c b a) by lia. lia.
  - apply (Compare_lt_trans a b c); [exact H1 | lia].
Qed.

(** Ordered skiplists *)

Lemma ordered_cons : forall (A : Type) k (v : A) l,
  skiplist_ordered ((k, v) :: l) = true <->
  skiplist_ordered l = true /\ (forall e, In e l -> Compare k (fst e) < 0).
Proof.
  intros A k v l. revert k v. induction l as [|[k' v'] l IH]; intros k v.
  - simpl. split; [intros _; split; [reflexivity | intros e []] | intros _; reflexivity].
  - change (skiplist_ordered ((k, v) :: (k', v') :: l))
      with ((Compare k k' <? 0) && skiplist_ordered ((k', v') :: l)).
    rewrite andb_true_iff. split.
    + intros [H1 H2]. zbool. split; [exact H2|].
      apply (IH k' v') in H2 as [_ H2].
      intros e [<- | He]; [exact H1|]. apply (Compare_lt_trans _ k'); [exact H1 | apply H2, He].
    + intros [H1 H2]. split; [apply Z.ltb_lt, (H2 (k', v')); left; reflexivity | exact H1].
Qed.

Lemma ordered_unique : forall (A : Type) (l : list (InternalKey * A)) k1 v1 k2 v2,
  skiplist_ordered l = true -> In (k1, v1) l -> In (k2, v2) l -> Compare k1 k2 = 0 ->
  (k1, v1) = (k2, v2).
Proof.
  intros A. induction l as [|[k v] l IH]; intros k1 v1 k2 v2 Ho H1 H2 Hc; [destruct H1|].
  apply ordered_cons in Ho as [Ho Hlt].
  destruct H1 as [E1|H1], H2 as [E2|H2].
  - congruence.
  - injection E1 as -> ->. apply Hlt in H2. simpl in H2. lia.
  - injection E2 as -> ->. apply Hlt in H1. simpl in H1. rewrite Compare_antisym in H1. lia.
  - exact (IH _ _ _ _ Ho H1 H2 Hc).
Qed.

Lemma skiplist_set_In : forall l k v e,
  In e (skiplist_set l k v) ->
  e = (k, v) \/ In e l \/ (exists k' v', In (k', v') l /\ Compare k' k = 0 /\ e = (k', v)).
Proof.
  induction l as [|[k' v'] l IH]; intros k v e H; simpl in H.
  - destruct H as [<-|[]]. left. reflexivity.
  - destruct (Compare k' k <? 0) eqn:C1; [|destruct (Compare k' k =? 0) eqn:C2].
    + destruct H as [<-|H]; [right; left; left; reflexivity|].
      apply IH in H as [H|[H|[k'' [v'' [H1 [H2 H3]]]]]].
      * left. exact H.
      * right. left. right. exact H.
      * right. right. exists k'', v''. split; [right; exact H1 | split; assumption].
    + zbool. destruct H as [<-|H].
      * right. right. exists k', v'. split; [left; reflexivity | split; [exact C2 | reflexivity]].
      * right. left. right. exact H.
    + destruct H as [<-|H]; [left; reflexivity | right; left; exact H].
Qed.

Lemma skiplist_set_ordered : forall l k v,
  skiplist_ordered l = true -> skiplist_ordered (skiplist_set l k v) = true.
Proof.
  induction l as [|[k' v'] l IH]; intros k v Ho; [reflexivity|]. simpl.
  destruct (Compare k' k <? 0) eqn:C1; [|destruct (Compare k' k =? 0) eqn:C2].
  - zbool. apply ordered_cons in Ho as [Ho Hlt]. apply ordered_cons. split; [apply IH, Ho|].
    intros e He. apply skiplist_set_In in He as [->|[He|[k'' [v'' [H1 [H2 ->]]]]]].
    + exact C1.
    + apply Hlt, He.
    + simpl. apply Hlt in H1. exact H1.
  - zbool. apply ordered_cons in Ho as [Ho Hlt]. apply ordered_cons. split; [exact Ho|].
    exact Hlt.
  - zbool. apply ordered_cons. split; [exact Ho|].
    assert (Hk : Compare k k' < 0) by (rewrite Compare_antisym; lia).
    apply ordered_cons in Ho as [_ Hlt].
    intros e [<- | He]; [exact Hk|]. apply (Compare_lt_trans _ k'); [exact Hk | apply Hlt, He].
Qed.

Lemma skiplist_set_fresh : forall l k v,
  (forall k' v', In (k', v') l -> Compare k' k <> 0) ->
  forall e, In e (skiplist_set l k v) <-> e = (k, v) \/ In e l.
Proof.
  induction l as [|[k' v'] l IH]; intros k v Hf e; simpl.
  - split; [intros [H|[]]; left; congruence | intros [H|[]]; left; congruence].
  - assert (Hk' : Compare k' k <> 0) by (apply (Hf k' v'); left; reflexivity).
    destruct (Compare k' k <? 0) eqn:C1; [|destruct (Compare k' k =? 0) eqn:C2].
    + simpl. rewrite IH by (intros k'' v'' H; apply (Hf k'' v''); right; exact H). tauto.
    + zbool. contradiction.
    + simpl. split; intros [H|[H|H]]; subst; auto.
Qed.

Lemma skiplist_set_replace : forall l k v k0 v0,
  skiplist_ordered l = true -> In (k0, v0) l -> Compare k0 k = 0 ->
  forall e, In e (skiplist_set l k v) <-> e = (k0, v) \/ (In e l /\ fst e <> k0).
Proof.
  induction l as [|[k' v'] l IH]; intros k v k0 v0 Ho Hin Hc e; [destruct Hin|]. simpl.
  apply ordered_cons in Ho as [Ho Hlt].
  destruct (Compare k' k <? 0) eqn:C1; [|destruct (Compare k' k =? 0) eqn:C2].
  - zbool. destruct Hin as [E|Hin].
    + injection E as -> ->. lia.
    + simpl. rewrite (IH k v k0 v0 Ho Hin Hc).
      assert (Hne : k' <> k0).
      { intros ->. apply Hlt in Hin. simpl in Hin. rewrite Compare_refl in Hin. lia. }
      split.
      * intros [<-|[H|[H1 H2]]]; [right; split; [left; reflexivity | exact Hne] | left; exact H
                                  | right; split; [right; exact H1 | exact H2]].
      * intros [H|[[<-|H1] H2]]; [right; left; exact H | left; reflexivity
                                  | right; right; split; assumption].
  - zbool. destruct Hin as [E|Hin].
    + injection E as -> ->. simpl. split.
      * intros [<-|H]; [left; reflexivity|]. right. split; [right; exact H|].
        intros E. apply Hlt in H. rewrite E, Compare_refl in H. lia.
      * intros [<-|[[<-|H] H2]]; [left; reflexivity | simpl in H2; congruence | right; exact H].
    + exfalso. apply Hlt in Hin. simpl in Hin.
      rewrite (Compare_eq0_l k' k k0) in Hin by exact C2.
      rewrite Compare_antisym, Hc in Hin. lia.
  - zbool. destruct Hin as [E|Hin].
    + injection E as -> ->. lia.
    + exfalso. apply Hlt in Hin. simpl in Hin.
      rewrite (Compare_eq0_r k' k0 k Hc) in Hin. lia.
Qed.

(** MemTable.Get on an ordered skiplist *)

Lemma probe_cmp : forall k key,
  SeqNum k <= MaxUint64 ->
  (Compare k (mkIK key MaxUint64 OpTypePut) >=? 0) =
  match bytes_compare (UserKey k) key with Lt => false | _ => true end.
Proof.
  intros k key Hs. unfold Compare. cbn [UserKey SeqNum].
  destruct (bytes_compare (UserKey k) key); try reflexivity.
  destruct (SeqNum k >? MaxUint64) eqn:E1; zbool; [lia|].
  destruct (SeqNum k <? MaxUint64); reflexivity.
Qed.

Lemma bytes_compare_gt_trans : forall a b c,
  bytes_compare a b = Gt -> bytes_compare b c <> Lt -> bytes_compare a c = Gt.
Proof.
  intros a b c H1 H2. destruct (bytes_compare b c) eqn:E.
  - apply bytes_compare_eq in E. subst. exact H1.
  - contradiction.
  - rewrite bytes_compare_antisym in H1, E |- *.
    destruct (bytes_compare b a) eqn:F1; try discriminate.
    destruct (bytes_compare c b) eqn:F2; try discriminate.
    rewrite (bytes_compare_trans c b a F2 F1). reflexivity.
Qed.

Lemma ordered_above_gt : forall (A : Type) (l : list (InternalKey * A)) k key,
  (forall e, In e l -> Compare k (fst e) < 0) ->
  bytes_compare (UserKey k) key = Gt ->
  find (fun e => bytes_eqb (UserKey (fst e)) key) l = None.
Proof.
  intros A. induction l as [|[k' v'] l IH]; intros k key Hlt Hg; [reflexivity|]. simpl.
  assert (Hk : Compare k k' < 0) by (apply (Hlt (k', v')); left; reflexivity).
  assert (Hg' : bytes_compare (UserKey k') key = Gt).
  { apply Compare_neg in Hk as [Hk|[Hk _]].
    - rewrite bytes_compare_antisym in Hk.
      destruct (bytes_compare (UserKey k') (UserKey k)) eqn:E; try discriminate.
      apply (bytes_compare_gt_trans _ (UserKey k)); [exact E | rewrite Hg; discriminate].
    - rewrite <- Hk. exact Hg. }
  replace (bytes_eqb (UserKey k') key) with false.
  - apply (IH k); [intros e He; apply Hlt; right; exact He | exact Hg].
  - symmetry. apply bytes_eqb_neq. intros E. rewrite E, bytes_compare_refl in Hg'. discriminate.
Qed.

Lemma mem_Get_find : forall l z key,
  skiplist_ordered l = true ->
  (forall k v, In (k, v) l -> SeqNum k <= MaxUint64) ->
  mem_Get (mkMem l z) key = newest_verdict l key.
Proof.
  induction l as [|[k v] l IH]; intros z key Ho Hs; [reflexivity|].
  unfold mem_Get, newest_verdict in *. cbn [data skiplist_find find fst].
  rewrite probe_cmp by (apply (Hs k v); left; reflexivity).
  apply ordered_cons in Ho as [Ho Hlt].
  destruct (bytes_compare (UserKey k) key) eqn:C.
  - apply bytes_compare_eq in C. rewrite C, (proj2 (bytes_eqb_eq key key) eq_refl).
    reflexivity.
  - assert (E : bytes_eqb (UserKey k) key = false)
      by (apply bytes_eqb_neq; intros E; rewrite E, bytes_compare_refl in C; discriminate).
    rewrite E. cbn [data] in IH. apply (IH z key Ho).
    intros k' v' H. apply (Hs k' v'). right. exact H.
  - assert (E : bytes_eqb (UserKey k) key = false)
      by (apply bytes_eqb_neq; intros E; rewrite E, bytes_compare_refl in C; discriminate).
    rewrite E. cbn [negb]. rewrite (ordered_above_gt _ l k key Hlt C). reflexivity.
Qed.

Lemma find_ordered_newest : forall (A : Type) (l : list (InternalKey * A)) key k v,
  skiplist_ordered l = true ->
  In (k, v) l -> UserKey k = key ->
  (forall k' v', In (k', v') l -> UserKey k' = key -> SeqNum k' <= SeqNum k) ->
  find (fun e => bytes_eqb (UserKey (fst e)) key) l = Some (k, v).
Proof.
  intros A. induction l as [|[k1 v1] l IH]; intros key k v Ho Hin Hk Hmax; [destruct Hin|].
  apply ordered_cons in Ho as [Ho Hlt]. cbn [find fst].
  destruct Hin as [E|Hin].
  - injection E as -> ->. rewrite (proj2 (bytes_eqb_eq _ _) Hk). reflexivity.
  - destruct (bytes_eqb (UserKey k1) key) eqn:E.
    + exfalso. apply bytes_eqb_eq in E.
      assert (H1 := Hlt _ Hin). simpl in H1. apply Compare_neg in H1 as [H1|[_ H1]].
      * rewrite E, Hk, bytes_compare_refl in H1. discriminate.
      * assert (H2 := Hmax k1 v1 (or_introl eq_refl) E). lia.
    + apply (IH key k v Ho Hin Hk). intros k' v' H. apply (Hmax k' v'). right. exact H.
Qed.

Lemma find_none : forall (A : Type) (f : A -> bool) l,
  (forall x, In x l -> f x = false) -> find f l = None.
Proof.
  intros A f l. induction l as [|x l IH]; intros H; [reflexivity|]. simpl.
  rewrite (H x (or_introl eq_refl)). apply IH. intros y Hy. apply H. right. exact Hy.
Qed.

(** MemTable.Put on a fresh key *)

Lemma skiplist_set_split : forall l k v,
  (forall k' v', In (k', v') l -> Compare k' k <> 0) ->
  exists l1 l2, l = l1 ++ l2 /\ skiplist_set l k v = l1 ++ (k, v) :: l2 /\
                (forall e, In e l1 -> Compare (fst e) k < 0).
Proof.
  induction l as [|[k' v'] l IH]; intros k v Hf.
  - exists [], []. split; [reflexivity | split; [reflexivity | intros e []]].
  - simpl. assert (Hk' : Compare k' k <> 0) by (apply (Hf k' v'); left; reflexivity).
    destruct (Compare k' k <? 0) eqn:C1; [|destruct (Compare k' k =? 0) eqn:C2].
    + zbool. destruct (IH k v) as [l1 [l2 [E1 [E2 H3]]]].
      { intros k'' v'' H. apply (Hf k'' v''). right. exact H. }
      exists ((k', v') :: l1), l2. rewrite E2, E1.
      split; [reflexivity | split; [reflexivity|]].
      intros e [<-|He]; [exact C1 | apply H3, He].
    + zbool. contradiction.
    + exists [], ((k', v') :: l). split; [reflexivity | split; [reflexivity | intros e []]].
Qed.

Lemma find_app_none_l : forall (A : Type) (f : A -> bool) l1 l2,
  (forall x, In x l1 -> f x = false) -> find f (l1 ++ l2) = find f l2.
Proof.
  intros A f l1 l2 H. induction l1 as [|x l1 IH]; [reflexivity|]. simpl.
  rewrite (H x (or_introl eq_refl)). apply IH. intros y Hy. apply H. right. exact Hy.
Qed.

Lemma below_probe_other_key : forall k key s t,
  Compare k (mkIK key s t) < 0 -> UserKey k = key -> s < SeqNum k.
Proof.
  intros k key s t H Hk. apply Compare_neg in H as [H|[H H']]; cbn [UserKey SeqNum] in *.
  - rewrite Hk, bytes_compare_refl in H. discriminate.
  - exact H'.
Qed.

Lemma find_insert_false : forall (A : Type) (f : A -> bool) l1 x l2,
  f x = false -> find f (l1 ++ x :: l2) = find f (l1 ++ l2).
Proof.
  intros A f l1 x l2 H. induction l1 as [|y l1 IH]; simpl; [rewrite H; reflexivity|].
  destruct (f y); [reflexivity | exact IH].
Qed.

Lemma seq_bound_forall : forall (l : list (InternalKey * slice)) (P : Z -> bool),
  forallb (fun e => P (SeqNum (fst e))) l = true ->
  forall k v, In (k, v) l -> P (SeqNum k) = true.
Proof.
  intros l P H k v Hin. rewrite forallb_forall in H. exact (H (k, v) Hin).
Qed.

Lemma mem_Put_fresh_split : forall m key s t value,
  forallb (fun e => negb (bytes_eqb (UserKey (fst e)) key) || (SeqNum (fst e) <? s))
          (data m) = true ->
  exists l1 l2, data m = l1 ++ l2 /\
    data (mem_Put m (mkIK key s t) value) = l1 ++ (mkIK key s t, value) :: l2 /\
    (forall e, In e l1 -> Compare (fst e) (mkIK key s t) < 0).
Proof.
  intros m key s t value Hf. apply skiplist_set_split.
  intros k v Hin E. rewrite forallb_forall in Hf. specialize (Hf (k, v) Hin). simpl in Hf.
  apply Compare_eq0 in E as [E1 E2]. cbn [UserKey SeqNum] in E1, E2.
  rewrite E1, (proj2 (bytes_eqb_eq key key) eq_refl) in Hf. simpl in Hf. zbool. lia.
Qed.

(** [Compare] on internal keys is a three-way comparison: its result is
    -1, 0 or 1, swapping the arguments negates it, it is 0 exactly when user
    key and sequence number agree (the type is ignored), and "less than" is
    transitive. *)
Theorem internalKeyComparable_Compare_order : forall a b c,
  (Compare a b = -1 \/ Compare a b = 0 \/ Compare a b = 1) /\
  Compare b a = - Compare a b /\
  (Compare a b = 0 <-> UserKey a = UserKey b /\ SeqNum a = SeqNum b) /\
  (Compare a b < 0 -> Compare b c < 0 -> Compare a c < 0).
Proof.
  intros a b c. split; [apply Compare_range|]. split; [apply Compare_antisym|].
  split; [apply Compare_eq0 | apply Compare_lt_trans].
Qed.

(** [MemTable.Put] keeps the skiplist sorted by [Compare]; a key that
    compares equal to no stored key is added beside the old entries, and a key
    that compares equal to a stored key replaces that entry's value (the
    stored key is kept). *)
Theorem MemTable_Put_entries : forall m key value,
  skiplist_ordered (data m) = true ->
  skiplist_ordered (data (mem_Put m key value)) = true /\
  ((forall k v, In (k, v) (data m) -> Compare k key <> 0) ->
   forall e, In e (data (mem_Put m key value)) <-> e = (key, value) \/ In e (data m)) /\
  (forall k v, In (k, v) (data m) -> Compare k key = 0 ->
   forall e, In e (data (mem_Put m key value)) <->
             e = (k, value) \/ (In e (data m) /\ fst e <> k)).
Proof.
  intros m key value Ho. unfold mem_Put. cbn [data].
  split; [apply skiplist_set_ordered, Ho|]. split.
  - apply skiplist_set_fresh.
  - intros k v Hin Hc. exact (skiplist_set_replace _ key value k v Ho Hin Hc).
Qed.

Lemma MemTable_Put_entries_witness :
  let m := mem_Put NewMemTable (mkIK key_k 1 OpTypePut) (Some val_old) in
  skiplist_ordered (data m) = true /\
  skiplist_ordered (data (mem_Put m (mkIK key_k 1 OpTypeDelete) None)) = true /\
  ((forall k v, In (k, v) (data m) -> Compare k (mkIK key_k 1 OpTypeDelete) <> 0) ->
   forall e, In e (data (mem_Put m (mkIK key_k 1 OpTypeDelete) None)) <->
             e = (mkIK key_k 1 OpTypeDelete, None) \/ In e (data m)) /\
  (forall k v, In (k, v) (data m) -> Compare k (mkIK key_k 1 OpTypeDelete) = 0 ->
   forall e, In e (data (mem_Put m (mkIK key_k 1 OpTypeDelete) None)) <->
             e = (k, None) \/ (In e (data m) /\ fst e <> k)).
Proof.
  intros m. assert (H : skiplist_ordered (data m) = true) by (vm_compute; reflexivity).
  split; [exact H | exact (MemTable_Put_entries m _ None H)].
Defined.

(** [MemTable.Get] on a sorted skiplist: a user key with no entry gives
    (nil, false); otherwise the entry with the largest sequence number for
    that key decides: a delete gives (nil, true), a put gives its value and
    true. *)
Theorem MemTable_Get_newest : forall m key,
  skiplist_ordered (data m) = true ->
  forallb (fun e => SeqNum (fst e) <=? MaxUint64) (data m) = true ->
  ((forall k v, In (k, v) (data m) -> UserKey k <> key) -> mem_Get m key = (None, false)) /\
  (forall k v, In (k, v) (data m) -> UserKey k = key ->
     forallb (fun e => negb (bytes_eqb (UserKey (fst e)) key) || (SeqNum (fst e) <=? SeqNum k))
             (data m) = true ->
     mem_Get m key = if Type_ k =? OpTypeDelete then (None, true) else (v, true)).
Proof.
  intros [l z] key Ho Hs. cbn [data] in *.
  assert (Hs' : forall k v, In (k, v) l -> SeqNum k <= MaxUint64)
    by (intros k v Hin; apply Z.leb_le, (seq_bound_forall l (fun s => s <=? MaxUint64) Hs k v Hin)).
  rewrite (mem_Get_find l z key Ho Hs'). unfold newest_verdict. split.
  - intros Hn. rewrite find_none; [reflexivity|].
    intros [k v] Hin. apply bytes_eqb_neq, (Hn k v Hin).
  - intros k v Hin Hk Hmax.
    rewrite (find_ordered_newest _ l key k v Ho Hin Hk); [reflexivity|].
    intros k' v' Hin' Hk'. rewrite forallb_forall in Hmax. specialize (Hmax _ Hin').
    simpl in Hmax. rewrite (proj2 (bytes_eqb_eq _ _) Hk') in Hmax. simpl in Hmax. zbool. exact Hmax.
Qed.

Lemma MemTable_Get_newest_witness :
  let m := mem_Put (mem_Put NewMemTable (mkIK key_k 1 OpTypePut) (Some val_old))
                   (mkIK key_k 2 OpTypePut) (Some val_new) in
  skiplist_ordered (data m) = true /\
  forallb (fun e => SeqNum (fst e) <=? MaxUint64) (data m) = true /\
  In (mkIK key_k 2 OpTypePut, Some val_new) (data m) /\
  forallb (fun e => negb (bytes_eqb (UserKey (fst e)) key_k) || (SeqNum (fst e) <=? 2))
          (data m) = true /\
  mem_Get m key_k = (Some val_new, true).
Proof.
  intros m.
  assert (H1 : skiplist_ordered (data m) = true) by (vm_compute; reflexivity).
  assert (H2 : forallb (fun e => SeqNum (fst e) <=? MaxUint64) (data m) = true)
    by (vm_compute; reflexivity).
  assert (H3 : In (mkIK key_k 2 OpTypePut, Some val_new) (data m)) by (left; reflexivity).
  assert (H4 : forallb (fun e => negb (bytes_eqb (UserKey (fst e)) key_k)
                                 || (SeqNum (fst e) <=? 2)) (data m) = true)
    by (vm_compute; reflexivity).
  split; [exact H1|]. split; [exact H2|]. split; [exact H3|]. split; [exact H4|].
  exact (proj2 (MemTable_Get_newest m key_k H1 H2) _ _ H3 eq_refl H4).
Defined.

Lemma mem_Put_Get_spec : forall m key s t value key',
  skiplist_ordered (data m) = true ->
  forallb (fun e => SeqNum (fst e) <=? MaxUint64) (data m) = true ->
  forallb (fun e => negb (bytes_eqb (UserKey (fst e)) key) || (SeqNum (fst e) <? s))
          (data m) = true ->
  s <= MaxUint64 ->
  mem_Get (mem_Put m (mkIK key s t) value) key
    = (if t =? OpTypeDelete then (None, true) else (value, true)) /\
  (key' <> key -> mem_Get (mem_Put m (mkIK key s t) value) key' = mem_Get m key').
Proof.
  intros m key s t value key' Ho Hs Hf Hsm.
  assert (Hs' : forall k v, In (k, v) (data m) -> SeqNum k <= MaxUint64)
    by (intros k v Hin; apply Z.leb_le,
          (seq_bound_forall _ (fun s => s <=? MaxUint64) Hs k v Hin)).
  destruct (mem_Put_fresh_split m key s t value Hf) as [l1 [l2 [E1 [E2 Hl1]]]].
  assert (Ho' : skiplist_ordered (data (mem_Put m (mkIK key s t) value)) = true)
    by (apply skiplist_set_ordered, Ho).
  assert (Hs'' : forall k v, In (k, v) (data (mem_Put m (mkIK key s t) value)) ->
                             SeqNum k <= MaxUint64).
  { intros k v Hin. rewrite E2 in Hin. apply in_app_or in Hin as [Hin|[E|Hin]].
    - apply (Hs' k v). rewrite E1. apply in_or_app. left. exact Hin.
    - injection E as <- _. exact Hsm.
    - apply (Hs' k v). rewrite E1. apply in_or_app. right. exact Hin. }
  destruct (mem_Put m (mkIK key s t) value) as [l' z'] eqn:Em. cbn [data] in *.
  destruct m as [l z]. cbn [data] in *.
  rewrite (mem_Get_find l' z' key Ho' Hs''), (mem_Get_find l' z' key' Ho' Hs'').
  rewrite (mem_Get_find l z key' Ho Hs'). unfold newest_verdict. subst l l'. split.
  - rewrite find_app_none_l.
    + cbn [find fst UserKey]. rewrite (proj2 (bytes_eqb_eq key key) eq_refl). reflexivity.
    + intros [k v] Hin. cbn [fst]. apply bytes_eqb_neq. intros Hk.
      assert (H1 := below_probe_other_key k key s t (Hl1 _ Hin) Hk).
      rewrite forallb_forall in Hf. specialize (Hf (k, v) (in_or_app _ _ _ (or_introl Hin))).
      simpl in Hf. rewrite (proj2 (bytes_eqb_eq _ _) Hk) in Hf. simpl in Hf. zbool. lia.
  - intros Hne. rewrite find_insert_false; [reflexivity|].
    cbn [fst UserKey]. apply bytes_eqb_neq. intros E. apply Hne. symmetry. exact E.
Qed.

(** Insert then lookup on the memtable: after [Put] of a key with a
    sequence number above every stored one for that key, [Get] of the key
    gives the new value (or (nil, true) for a delete), and [Get] of every
    other user key is unchanged. *)
Theorem MemTable_Put_Get : forall m key s t value key',
  skiplist_ordered (data m) = true ->
  forallb (fun e => SeqNum (fst e) <=? MaxUint64) (data m) = true ->
  forallb (fun e => negb (bytes_eqb (UserKey (fst e)) key) || (SeqNum (fst e) <? s))
          (data m) = true ->
  s <= MaxUint64 ->
  mem_Get (mem_Put m (mkIK key s t) value) key
    = (if t =? OpTypeDelete then (None, true) else (value, true)) /\
  (key' <> key -> mem_Get (mem_Put m (mkIK key s t) value) key' = mem_Get m key').
Proof. exact mem_Put_Get_spec. Qed.

Lemma MemTable_Put_Get_witness :
  let m := mem_Put NewMemTable (mkIK key_k 1 OpTypePut) (Some val_old) in
  skiplist_ordered (data m) = true /\
  forallb (fun e => SeqNum (fst e) <=? MaxUint64) (data m) = true /\
  forallb (fun e => negb (bytes_eqb (UserKey (fst e)) key_k) || (SeqNum (fst e) <? 2))
          (data m) = true /\
  mem_Get (mem_Put m (mkIK key_k 2 OpTypeDelete) None) key_k = (None, true).
Proof.
  intros m.
  assert (H1 : skiplist_ordered (data m) = true) by (vm_compute; reflexivity).
  assert (H2 : forallb (fun e => SeqNum (fst e) <=? MaxUint64) (data m) = true)
    by (vm_compute; reflexivity).
  assert (H3 : forallb (fun e => negb (bytes_eqb (UserKey (fst e)) key_k)
                                 || (SeqNum (fst e) <? 2)) (data m) = true)
    by (vm_compute; reflexivity).
  split; [exact H1|]. split; [exact H2|]. split; [exact H3|].
  exact (proj1 (MemTable_Put_Get m key_k 2 OpTypeDelete None key_a H1 H2 H3
                  ltac:(vm_compute; discriminate))).
Defined.

(** SSTables *)












Section Blocks.
Variable key : bytes.
Let p := mkIK key MaxInt64 OpTypePut.
Let P := fun e : InternalKey * bytes => bytes_eqb (UserKey (fst e)) key.

End Blocks.





Lemma nth_In_concat : forall (A : Type) (B : list (list A)) i x,
  In x (nth i B []) -> In x (concat B).
Proof.
  intros A B i x H. apply in_concat. exists (nth i B []). split; [|exact H].
  destruct (Nat.lt_ge_cases i (length B)) as [Hi|Hi]; [apply nth_In, Hi|].
  rewrite nth_overflow in H by exact Hi. destruct H.
Qed.





(** DB *)

Lemma sst_loop_ext : forall bloom_fp fs fs' n key,
  (forall m, fs_get fs' (PSst m) = fs_get fs (PSst m)) ->
  sst_loop bloom_fp fs' n key = sst_loop bloom_fp fs n key.
Proof.
  intros bloom_fp fs fs' n key H. induction n as [|n IH]; [reflexivity|].
  cbn [sst_loop]. rewrite H, IH. reflexivity.
Qed.

Lemma flushMemtable_sst : forall w m,
  fs_get (fs (flushMemtable w)) (PSst m) = fs_get (fs w) (PSst m).
Proof.
  intros w m. unfold flushMemtable.
  destruct (immutableMem (db w)); [reflexivity|].
  unfold fs_rename. destruct (fs_get (fs w) PActiveWal); [|reflexivity]. cbn [fs].
  rewrite !fs_get_set, !fs_get_remove. reflexivity.
Qed.

Lemma wal_append_sst : forall fs e m,
  fs_get (wal_append fs e) (PSst m) = fs_get fs (PSst m).
Proof.
  intros fs0 e m. unfold wal_append.
  destruct (fs_get fs0 PActiveWal) as [[]|]; rewrite fs_get_set; reflexivity.
Qed.

Lemma flushMemtable_Get_same : forall bloom_fp w key,
  DB_Get bloom_fp (flushMemtable w) key = DB_Get bloom_fp w key.
Proof.
  intros bloom_fp w key.
  assert (Hs := sst_loop_ext bloom_fp (fs w) (fs (flushMemtable w))).
  unfold flushMemtable in *.
  destruct (immutableMem (db w)) eqn:Ei; [reflexivity|].
  destruct (fs_rename (fs w) PActiveWal (PRotatedWal (ssTableCounter (db w)))) as [fs1|] eqn:Er;
    [|reflexivity].
  unfold DB_Get. cbn [db mem immutableMem ssTableCounter fs] in *. rewrite Ei.
  change (mem_Get NewMemTable key) with (@None bytes, false). cbv beta iota.
  destruct (mem_Get (mem (db w)) key) as [v [|]]; [reflexivity|].
  apply Hs. intros m. rewrite fs_get_set. cbn [path_eqb].
  unfold fs_rename in Er. destruct (fs_get (fs w) PActiveWal); [|discriminate].
  injection Er as <-. rewrite fs_get_set, fs_get_remove. reflexivity.
Qed.

(** [DB.Get] gives the same answer before and after [flushMemtable]: the
    active memtable becomes the immutable one, which [Get] reads next, the
    new active memtable is empty, and no SSTable is touched; when a flush is
    already pending or the WAL cannot be renamed, nothing changes. *)
Theorem flushMemtable_preserves_Get : forall bloom_fp w key,
  DB_Get bloom_fp (flushMemtable w) key = DB_Get bloom_fp w key.
Proof. exact flushMemtable_Get_same. Qed.

Lemma find_skiplist_set_other : forall l k v key,
  UserKey k <> key ->
  find (fun e => bytes_eqb (UserKey (fst e)) key) (skiplist_set l k v)
  = find (fun e => bytes_eqb (UserKey (fst e)) key) l.
Proof.
  intros l k v key Hne. induction l as [|[k' v'] l IH]; simpl.
  - rewrite (proj2 (bytes_eqb_neq _ _) Hne). reflexivity.
  - destruct (Compare k' k <? 0) eqn:C1; simpl; [rewrite IH; reflexivity|].
    destruct (Compare k' k =? 0) eqn:C2; simpl.
    + apply Z.eqb_eq, Compare_eq0 in C2 as [E _]. rewrite E.
      rewrite (proj2 (bytes_eqb_neq _ _) Hne). reflexivity.
    + rewrite (proj2 (bytes_eqb_neq _ _) Hne). reflexivity.
Qed.

Lemma seq_le_In : forall (l : list (InternalKey * slice)) b k v,
  forallb (fun e => SeqNum (fst e) <=? b) l = true -> In (k, v) l -> SeqNum k <= b.
Proof.
  intros l b k v H Hin. apply Z.leb_le, (seq_bound_forall l (fun s => s <=? b) H k v Hin).
Qed.

Lemma mem_Put_other : forall m k s t v key,
  skiplist_ordered (data m) = true ->
  (forall k' v', In (k', v') (data m) -> SeqNum k' <= MaxUint64) ->
  s <= MaxUint64 -> key <> k ->
  mem_Get (mem_Put m (mkIK k s t) v) key = mem_Get m key.
Proof.
  intros [l z] k s t v key Ho Hs Hsm Hne. cbn [data] in *. unfold mem_Put. cbn [data].
  rewrite (mem_Get_find l z key Ho Hs).
  rewrite mem_Get_find.
  - unfold newest_verdict. rewrite find_skiplist_set_other; [reflexivity|].
    cbn [UserKey]. intros E. apply Hne. symmetry. exact E.
  - apply skiplist_set_ordered, Ho.
  - intros k' v' Hin. apply skiplist_set_In in Hin as [E|[Hin|[k0 [v0 [Hin [_ E]]]]]].
    + injection E as E1 _. subst k'. exact Hsm.
    + apply (Hs k' v' Hin).
    + injection E as E1 _. subst k'. apply (Hs k0 v0 Hin).
Qed.

Lemma write_other_key : forall bloom_fp w key s t v k',
  skiplist_ordered (data (mem (db w))) = true ->
  (forall k0 v0, In (k0, v0) (data (mem (db w))) -> SeqNum k0 <= MaxUint64) ->
  0 <= s <= MaxUint64 -> k' <> key ->
  forall fs1,
  (forall m, fs_get fs1 (PSst m) = fs_get (fs w) (PSst m)) ->
  DB_Get bloom_fp (mkWorld (mkDB (mem_Put (mem (db w)) (mkIK key s t) v) (immutableMem (db w))
                                 (ssTableCounter (db w)) s) fs1 (tasks w)) k'
  = DB_Get bloom_fp w k'.
Proof.
  intros bloom_fp w key s t v k' Ho Hs Hsm Hne fs1 Hfs.
  unfold DB_Get. cbn [db mem immutableMem ssTableCounter fs].
  rewrite (mem_Put_other _ key s t v k' Ho Hs ltac:(lia) Hne).
  destruct (mem_Get (mem (db w)) k') as [x [|]]; [reflexivity|].
  destruct (immutableMem (db w)) as [imm|].
  - destruct (mem_Get imm k') as [y [|]]; [reflexivity|]. apply sst_loop_ext, Hfs.
  - apply sst_loop_ext, Hfs.
Qed.

(** A [Put] or a [Delete] of one key leaves [Get] of every other key
    unchanged, whether or not it rotates the memtable, as long as the
    active memtable is ordered and its sequence numbers fit in a
    [uint64]. *)
Theorem Put_Delete_other_key_Get : forall bloom_fp w key v k',
  skiplist_ordered (data (mem (db w))) = true ->
  forallb (fun e => SeqNum (fst e) <=? MaxUint64) (data (mem (db w))) = true ->
  k' <> key ->
  DB_Get bloom_fp (fst (DB_Put w key v)) k' = DB_Get bloom_fp w k' /\
  DB_Get bloom_fp (fst (DB_Delete w key)) k' = DB_Get bloom_fp w k'.
Proof.
  intros bloom_fp w key v k' Ho Hs Hne.
  assert (Hs' : forall k0 v0, In (k0, v0) (data (mem (db w))) -> SeqNum k0 <= MaxUint64)
    by (intros k0 v0; apply seq_le_In, Hs).
  assert (Hr : 0 <= (sequenceNum (db w) + 1) mod 2 ^ 64 <= MaxUint64)
    by (pose proof (Z.mod_pos_bound (sequenceNum (db w) + 1) (2 ^ 64) ltac:(lia));
        unfold MaxUint64; lia).
  split.
  - unfold DB_Put. cbv zeta. cbn [fst].
    destruct (ApproximateSize _ >? MemTableSizeThreshold);
      [rewrite flushMemtable_Get_same|];
      (apply write_other_key; [exact Ho | exact Hs' | exact Hr | exact Hne |]);
      intros m; apply wal_append_sst.
  - unfold DB_Delete. cbv zeta. cbn [fst].
    destruct (ApproximateSize _ >? MemTableSizeThreshold);
      [rewrite flushMemtable_Get_same|];
      (apply write_other_key; [exact Ho | exact Hs' | exact Hr | exact Hne |]);
      intros m; apply wal_append_sst.
Qed.

Lemma Put_Delete_other_key_Get_witness :
  skiplist_ordered (data (mem (db session1))) = true /\
  forallb (fun e => SeqNum (fst e) <=? MaxUint64) (data (mem (db session1))) = true /\
  key_a <> key_k /\
  DB_Get no_false_positive (fst (DB_Put session1 key_k (Some val_new))) key_a
    = DB_Get no_false_positive session1 key_a /\
  DB_Get no_false_positive (fst (DB_Delete session1 key_k)) key_a
    = DB_Get no_false_positive session1 key_a.
Proof.
  assert (H1 : skiplist_ordered (data (mem (db session1))) = true) by (vm_compute; reflexivity).
  assert (H2 : forallb (fun e => SeqNum (fst e) <=? MaxUint64) (data (mem (db session1))) = true)
    by (vm_compute; reflexivity).
  assert (H3 : key_a <> key_k) by (unfold key_a, key_k; congruence).
  split; [exact H1 | split; [exact H2 | split; [exact H3 |]]].
  exact (Put_Delete_other_key_Get no_false_positive session1 key_k (Some val_new) key_a H1 H2 H3).
Defined.

Lemma write_same_key : forall bloom_fp w key s t v fs1 ts,
  skiplist_ordered (data (mem (db w))) = true ->
  forallb (fun e => SeqNum (fst e) <=? sequenceNum (db w)) (data (mem (db w))) = true ->
  0 <= sequenceNum (db w) < MaxUint64 ->
  s = sequenceNum (db w) + 1 ->
  DB_Get bloom_fp (mkWorld (mkDB (mem_Put (mem (db w)) (mkIK key s t) v) (immutableMem (db w))
                                 (ssTableCounter (db w)) s) fs1 ts) key
  = if t =? OpTypeDelete then (None, false)
    else match v with None => (None, false) | Some _ => (v, true) end.
Proof.
  intros bloom_fp w key s t v fs1 ts Ho Hs Hr Es.
  assert (Hs' : forallb (fun e => SeqNum (fst e) <=? MaxUint64) (data (mem (db w))) = true).
  { rewrite forallb_forall in Hs |- *. intros e He. specialize (Hs e He).
    apply Z.leb_le in Hs. apply Z.leb_le. unfold MaxUint64 in *. lia. }
  assert (Hf : forallb (fun e => negb (bytes_eqb (UserKey (fst e)) key) || (SeqNum (fst e) <? s))
                       (data (mem (db w))) = true).
  { rewrite forallb_forall in Hs |- *. intros e He. specialize (Hs e He).
    apply Z.leb_le in Hs. apply orb_true_intro. right. apply Z.ltb_lt. lia. }
  destruct (mem_Put_Get_spec (mem (db w)) key s t v key Ho Hs' Hf ltac:(lia)) as [Hg _].
  unfold DB_Get. cbn [db mem]. rewrite Hg.
  destruct (t =? OpTypeDelete); reflexivity.
Qed.

(** Read-your-writes of the engine: right after [Put(key, v)], [Get(key)]
    returns [v] with [found] when [v] is not nil, and not-found for a nil
    value (the memtable holds a put entry without value, which [Get] reads
    as missing); right after [Delete(key)], [Get(key)] returns not-found.
    This holds when the sequence number does not wrap and the active
    memtable is ordered with sequence numbers at most the current one. *)
Theorem Put_Delete_then_Get : forall bloom_fp w key v,
  skiplist_ordered (data (mem (db w))) = true ->
  forallb (fun e => SeqNum (fst e) <=? sequenceNum (db w)) (data (mem (db w))) = true ->
  0 <= sequenceNum (db w) < MaxUint64 ->
  DB_Get bloom_fp (fst (DB_Put w key v)) key
    = match v with None => (None, false) | Some _ => (v, true) end /\
  DB_Get bloom_fp (fst (DB_Delete w key)) key = (None, false).
Proof.
  intros bloom_fp w key v Ho Hs Hr.
  assert (Es : (sequenceNum (db w) + 1) mod 2 ^ 64 = sequenceNum (db w) + 1)
    by (apply Z.mod_small; unfold MaxUint64 in Hr; lia).
  split.
  - unfold DB_Put. cbv zeta. cbn [fst]. rewrite Es.
    destruct (ApproximateSize _ >? MemTableSizeThreshold);
      [rewrite flushMemtable_Get_same|];
      rewrite (write_same_key bloom_fp w key _ OpTypePut v _ _ Ho Hs Hr eq_refl); reflexivity.
  - unfold DB_Delete. cbv zeta. cbn [fst]. rewrite Es.
    destruct (ApproximateSize _ >? MemTableSizeThreshold);
      [rewrite flushMemtable_Get_same|];
      rewrite (write_same_key bloom_fp w key _ OpTypeDelete None _ _ Ho Hs Hr eq_refl); reflexivity.
Qed.

Lemma Put_Delete_then_Get_witness :
  skiplist_ordered (data (mem (db session1))) = true /\
  forallb (fun e => SeqNum (fst e) <=? sequenceNum (db session1)) (data (mem (db session1))) = true /\
  0 <= sequenceNum (db session1) < MaxUint64 /\
  DB_Get no_false_positive (fst (DB_Put session1 key_k (Some val_new))) key_k
    = (Some val_new, true) /\
  DB_Get no_false_positive (fst (DB_Delete session1 key_k)) key_k = (None, false).
Proof.
  assert (H1 : skiplist_ordered (data (mem (db session1))) = true) by (vm_compute; reflexivity).
  assert (H2 : forallb (fun e => SeqNum (fst e) <=? sequenceNum (db session1))
                       (data (mem (db session1))) = true) by (vm_compute; reflexivity).
  assert (H3 : 0 <= sequenceNum (db session1) < MaxUint64)
    by (split; [apply Z.leb_le | apply Z.ltb_lt]; vm_compute; reflexivity).
  split; [exact H1 | split; [exact H2 | split; [exact H3 |]]].
  exact (Put_Delete_then_Get no_false_positive session1 key_k (Some val_new) H1 H2 H3).
Defined.

Lemma sst_loop_partial : forall bloom_fp fs c f key,
  (forall t, f <> FSst t) ->
  sst_loop bloom_fp (fs_set fs (PSst c) f) (Z.to_nat (c + 1 - 1)) key
  = sst_loop bloom_fp fs (Z.to_nat (c - 1)) key.
Proof.
  intros bloom_fp fs0 c f key Hf. replace (c + 1 - 1) with c by lia.
  destruct (Z_le_gt_dec c 0) as [Hc|Hc].
  - replace (Z.to_nat c) with 0%nat by lia. replace (Z.to_nat (c - 1)) with 0%nat by lia.
    reflexivity.
  - replace (Z.to_nat c) with (S (Z.to_nat (c - 1))) by lia. cbn [sst_loop].
    replace (Z.of_nat (S (Z.to_nat (c - 1)))) with c by lia.
    rewrite fs_get_set. cbn [path_eqb]. rewrite Z.eqb_refl.
    destruct f; try (apply sst_loop_above; lia).
    exfalso. apply (Hf t). reflexivity.
Qed.

(** A background flush whose SSTable write fails leaves [DB.Get] of every
    key unchanged: the immutable memtable stays in place and the partial
    file left at the old ordinal is skipped by the SSTable loop. *)
Theorem flush_worker_failure_preserves_Get : forall gob_len bloom_fp w key,
  DB_Get bloom_fp (flush_worker gob_len w WriteFailed) key = DB_Get bloom_fp w key.
Proof.
  intros gob_len bloom_fp w key. unfold flush_worker.
  destruct (tasks w) as [|t ts]; [reflexivity|]. cbn [negb].
  unfold DB_Get. cbn [db mem immutableMem ssTableCounter fs].
  destruct (mem_Get (mem (db w)) key) as [x [|]]; [reflexivity|].
  destruct (immutableMem (db w)) as [imm|].
  - destruct (mem_Get imm key) as [y [|]]; [reflexivity|].
    apply sst_loop_partial. discriminate.
  - apply sst_loop_partial. discriminate.
Qed.



(** ** The plain SSTable format *)
Lemma ReadFull_app : forall a r, Legacy.ReadFull (length a) (a ++ r) = inl (a, r).
Proof.
  intros a r. unfold Legacy.ReadFull. destruct a as [|x a]; [reflexivity|].
  cbn [length app]. simpl (S (length a) =? 0)%nat. cbv iota.
  change (x :: a ++ r) with ((x :: a) ++ r).
  change (S (length a)) with (length (x :: a)).
  rewrite firstn_app_len, skipn_app_len.
  rewrite (proj2 (Nat.ltb_ge _ _)) by (simpl; rewrite ?length_app; lia). reflexivity.
Qed.

Lemma ReadUint32_le : forall x r, 0 <= x < 2 ^ 32 ->
  Legacy.ReadUint32 (le_bytes 4 x ++ r) = inl (x, r).
Proof.
  intros x r Hx. unfold Legacy.ReadUint32.
  rewrite <- (le_bytes_length 4 x) at 1. rewrite ReadFull_app, le_decode_le_bytes.
  rewrite Z.mod_small by (simpl; lia). reflexivity.
Qed.

Lemma record_size_mod : forall (l : bytes), Z.of_nat (length l) < 2 ^ 32 ->
  Z.of_nat (length l) mod 2 ^ 32 = Z.of_nat (length l).
Proof. intros l H. apply Z.mod_small. lia. Qed.

Lemma find_loop_records : forall (it : list (bytes * bytes)) fuel key,
  (length it < fuel)%nat ->
  Forall (fun e : bytes * bytes => Z.of_nat (length (fst e)) < 2 ^ 32 /\ Z.of_nat (length (snd e)) < 2 ^ 32) it ->
  Legacy.find_loop fuel (Legacy.WriteSSTable it) key =
  match find (fun e => bytes_eqb (fst e) key) it with
  | Some (_, v) => (Some v, true, None)
  | None => (None, false, None)
  end.
Proof.
  induction it as [|[k v] it IH]; intros fuel key Hf Hb.
  - destruct fuel as [|fuel]; [lia|]. reflexivity.
  - destruct fuel as [|fuel]; [lia|]. apply Forall_cons_iff in Hb as [[Hk Hv] Hb].
    cbn [fst snd] in Hk, Hv.
    unfold Legacy.WriteSSTable. cbn [map concat].
    change (concat (map Legacy.record it)) with (Legacy.WriteSSTable it).
    unfold Legacy.record. cbn [fst snd].
    rewrite (record_size_mod k Hk), (record_size_mod v Hv).
    cbn [Legacy.find_loop]. rewrite <- !app_assoc.
    rewrite ReadUint32_le by lia. rewrite ReadUint32_le by lia.
    rewrite Nat2Z.id, ReadFull_app. simpl find.
    destruct (bytes_eqb k key).
    + rewrite Nat2Z.id, ReadFull_app. reflexivity.
    + rewrite Nat2Z.id, skipn_app_len. exact (IH fuel key ltac:(simpl in Hf; lia) Hb).
Qed.

Lemma WriteSSTable_length : forall (it : list (bytes * bytes)), (length it <= length (Legacy.WriteSSTable it))%nat.
Proof.
  induction it as [|e it IH]; [cbn; lia|].
  unfold Legacy.WriteSSTable in *. cbn [map concat]. rewrite length_app.
  assert (H : (8 <= length (Legacy.record e))%nat)
    by (unfold Legacy.record; rewrite !length_app, !le_bytes_length; lia).
  cbn [length]. lia.
Qed.

(** The second [WriteSSTable] and [FindInSSTable] round trip: a key written
    is found with the value of its first record (an empty value is found as
    an empty, non-nil slice), and a key never written is not found, without
    error, when every key and value is shorter than [2^32] bytes. *)
Theorem FindInSSTable_WriteSSTable : forall (it : list (bytes * bytes)) key,
  Forall (fun e : bytes * bytes => Z.of_nat (length (fst e)) < 2 ^ 32 /\ Z.of_nat (length (snd e)) < 2 ^ 32) it ->
  Legacy.FindInSSTable (Legacy.WriteSSTable it) key =
  match find (fun e => bytes_eqb (fst e) key) it with
  | Some (_, v) => (Some v, true, None)
  | None => (None, false, None)
  end.
Proof.
  intros it key Hb. unfold Legacy.FindInSSTable. apply find_loop_records; [|exact Hb].
  apply Nat.lt_succ_r, WriteSSTable_length.
Qed.

Lemma FindInSSTable_WriteSSTable_witness :
  let it : list (bytes * bytes) := [(key_a, val_old); (key_k, []); (key_k, val_new)] in
  Forall (fun e : bytes * bytes => Z.of_nat (length (fst e)) < 2 ^ 32 /\ Z.of_nat (length (snd e)) < 2 ^ 32) it /\
  Legacy.FindInSSTable (Legacy.WriteSSTable it) key_k = (Some [], true, None).
Proof.
  intros it.
  assert (H : Forall (fun e : bytes * bytes => Z.of_nat (length (fst e)) < 2 ^ 32 /\ Z.of_nat (length (snd e)) < 2 ^ 32) it)
    by (repeat constructor; simpl; lia).
  split; [exact H|].
  rewrite (FindInSSTable_WriteSSTable it key_k H). reflexivity.
Defined.

Lemma firstn_app_ge : forall (A : Type) (a b : list A) c,
  (length a <= c)%nat -> firstn c (a ++ b) = a ++ firstn (c - length a) b.
Proof.
  intros A a b c H. rewrite firstn_app, firstn_all2 by exact H. reflexivity.
Qed.

Lemma firstn_app_le : forall (A : Type) (a b : list A) c,
  (c <= length a)%nat -> firstn c (a ++ b) = firstn c a.
Proof.
  intros A a b c H. rewrite firstn_app.
  replace (c - length a)%nat with 0%nat by lia. rewrite app_nil_r. reflexivity.
Qed.

Lemma ReadFull_short : forall n r, (0 < length r < n)%nat ->
  Legacy.ReadFull n r = inr Legacy.ErrUnexpectedEOF.
Proof.
  intros n [|x r] H; [simpl in H; lia|]. unfold Legacy.ReadFull.
  rewrite (proj2 (Nat.eqb_neq n 0)) by lia.
  rewrite (proj2 (Nat.ltb_lt _ _)) by lia. reflexivity.
Qed.

Lemma ReadFull_nil : forall n, (0 < n)%nat -> Legacy.ReadFull n [] = inr Legacy.EOF.
Proof.
  intros n H. unfold Legacy.ReadFull. rewrite (proj2 (Nat.eqb_neq n 0)) by lia. reflexivity.
Qed.

Lemma find_loop_skip : forall (it : list (bytes * bytes)) r fuel key,
  (length it < fuel)%nat ->
  Forall (fun e : bytes * bytes => Z.of_nat (length (fst e)) < 2 ^ 32 /\ Z.of_nat (length (snd e)) < 2 ^ 32) it ->
  find (fun e => bytes_eqb (fst e) key) it = None ->
  Legacy.find_loop fuel (Legacy.WriteSSTable it ++ r) key =
  Legacy.find_loop (fuel - length it) r key.
Proof.
  induction it as [|[k v] it IH]; intros r fuel key Hf Hb Hn.
  - rewrite Nat.sub_0_r. reflexivity.
  - destruct fuel as [|fuel]; [simpl in Hf; lia|]. apply Forall_cons_iff in Hb as [[Hk Hv] Hb].
    cbn [fst snd] in Hk, Hv. simpl in Hn. destruct (bytes_eqb k key) eqn:E; [discriminate|].
    unfold Legacy.WriteSSTable. cbn [map concat].
    change (concat (map Legacy.record it)) with (Legacy.WriteSSTable it).
    unfold Legacy.record. cbn [fst snd].
    rewrite (record_size_mod k Hk), (record_size_mod v Hv).
    cbn [Legacy.find_loop]. rewrite <- !app_assoc.
    rewrite ReadUint32_le by lia. rewrite ReadUint32_le by lia.
    rewrite Nat2Z.id, ReadFull_app, E, Nat2Z.id, skipn_app_len.
    exact (IH r fuel key ltac:(simpl in Hf; lia) Hb Hn).
Qed.

(** [FindInSSTable] on a file cut [c] bytes into a record, no earlier record
    holding the key: a cut in the sizes or the key is a read error ([io.EOF]
    when the cut falls exactly between two reads, [io.ErrUnexpectedEOF]
    otherwise), and so is a cut in the value of a record holding the key; a
    cut in the value of a record with another key is not detected: the
    [Seek] goes past the end and the key is reported missing without error. *)
Theorem FindInSSTable_truncated : forall (it : list (bytes * bytes)) e c key,
  Forall (fun e : bytes * bytes => Z.of_nat (length (fst e)) < 2 ^ 32 /\ Z.of_nat (length (snd e)) < 2 ^ 32)
         (it ++ [e]) ->
  find (fun e => bytes_eqb (fst e) key) it = None ->
  (0 < c < length (Legacy.record e))%nat ->
  let kl := length (fst e) in
  Legacy.FindInSSTable (Legacy.WriteSSTable it ++ firstn c (Legacy.record e)) key =
  if (c <? 4)%nat then (None, false, Some Legacy.ErrUnexpectedEOF)
  else if (c =? 4)%nat then (None, false, Some Legacy.EOF)
  else if (c <? 8)%nat then (None, false, Some Legacy.ErrUnexpectedEOF)
  else if (c <? 8 + kl)%nat then
    (None, false, Some (if (c =? 8)%nat then Legacy.EOF else Legacy.ErrUnexpectedEOF))
  else if bytes_eqb (fst e) key then
    (None, false, Some (if (c =? 8 + kl)%nat then Legacy.EOF else Legacy.ErrUnexpectedEOF))
  else (None, false, None).
Proof.
  intros it [k v] c key Hb Hn Hc kl. cbn [fst] in kl. subst kl.
  apply Forall_app in Hb as [Hb He]. apply Forall_cons_iff in He as [[Hk Hv] _].
  cbn [fst snd] in Hk, Hv |- *.
  unfold Legacy.FindInSSTable. rewrite find_loop_skip; [| |exact Hb|exact Hn].
  2:{ rewrite length_app. pose proof (WriteSSTable_length it). lia. }
  assert (Hfuel : (2 <= S (length (Legacy.WriteSSTable it ++ firstn c (Legacy.record (k, v))))
                        - length it)%nat).
  { rewrite length_app, length_firstn. pose proof (WriteSSTable_length it). lia. }
  remember (S (length (Legacy.WriteSSTable it ++ firstn c (Legacy.record (k, v))))
            - length it)%nat as fuel eqn:Ef. clear Ef.
  destruct fuel as [|[|fuel]]; [lia|lia|]. clear Hfuel.
  unfold Legacy.record in *. cbn [fst snd] in *.
  rewrite (record_size_mod k Hk), (record_size_mod v Hv) in *.
  rewrite !length_app, !le_bytes_length in Hc.
  set (h1 := le_bytes 4 (Z.of_nat (length k))) in *.
  set (h2 := le_bytes 4 (Z.of_nat (length v))) in *.
  assert (L1 : length h1 = 4%nat) by apply le_bytes_length.
  assert (L2 : length h2 = 4%nat) by apply le_bytes_length.
  assert (R1 : Legacy.ReadUint32 (h1 ++ []) = inl (Z.of_nat (length k), []))
    by (apply ReadUint32_le; lia).
  rewrite app_nil_r in R1.
  assert (R1' : forall r, Legacy.ReadUint32 (h1 ++ r) = inl (Z.of_nat (length k), r))
    by (intros r; apply ReadUint32_le; lia).
  assert (R2' : forall r, Legacy.ReadUint32 (h2 ++ r) = inl (Z.of_nat (length v), r))
    by (intros r; apply ReadUint32_le; lia).
  cbn [Legacy.find_loop].
  destruct (Nat.ltb_spec c 4) as [C4|C4].
  { rewrite firstn_app_le by lia. unfold Legacy.ReadUint32.
    rewrite ReadFull_short by (rewrite length_firstn; lia). reflexivity. }
  rewrite firstn_app_ge by lia. rewrite L1, R1'.
  destruct (Nat.eqb_spec c 4) as [C4'|C4'].
  { subst c. simpl (4 - 4)%nat. reflexivity. }
  destruct (Nat.ltb_spec c 8) as [C8|C8].
  { rewrite firstn_app_le by lia. unfold Legacy.ReadUint32 at 1.
    rewrite ReadFull_short by (rewrite length_firstn; lia). reflexivity. }
  rewrite firstn_app_ge by lia. rewrite L2, R2', Nat2Z.id.
  destruct (Nat.ltb_spec c (8 + length k)) as [CK|CK].
  { destruct (Nat.eqb_spec c 8) as [C8'|C8'].
    - subst c. simpl (8 - 4 - 4)%nat. rewrite ReadFull_nil by lia. reflexivity.
    - rewrite firstn_app_le by lia.
      rewrite ReadFull_short by (rewrite length_firstn; lia). reflexivity. }
  rewrite firstn_app_ge by lia. rewrite ReadFull_app.
  destruct (bytes_eqb k key).
  - rewrite Nat2Z.id. destruct (Nat.eqb_spec c (8 + length k)) as [CE|CE].
    + subst c. replace (8 + length k - 4 - 4 - length k)%nat with 0%nat by lia.
      rewrite ReadFull_nil by lia. reflexivity.
    + rewrite ReadFull_short by (rewrite length_firstn; lia). reflexivity.
  - rewrite Nat2Z.id, skipn_all2 by (rewrite length_firstn; lia).
    cbn [Legacy.find_loop]. unfold Legacy.ReadUint32. rewrite ReadFull_nil by lia.
    reflexivity.
Qed.

Lemma FindInSSTable_truncated_witness :
  let it : list (bytes * bytes) := [(key_a, val_old)] in
  let e : bytes * bytes := (key_b, val_new) in
  Forall (fun e : bytes * bytes => Z.of_nat (length (fst e)) < 2 ^ 32 /\ Z.of_nat (length (snd e)) < 2 ^ 32)
         (it ++ [e]) /\
  find (fun e => bytes_eqb (fst e) key_k) it = None /\
  (0 < 9 < length (Legacy.record e))%nat /\
  Legacy.FindInSSTable (Legacy.WriteSSTable it ++ firstn 9 (Legacy.record e)) key_k
  = (None, false, None).
Proof.
  intros it e.
  assert (H1 : Forall (fun e : bytes * bytes => Z.of_nat (length (fst e)) < 2 ^ 32 /\ Z.of_nat (length (snd e)) < 2 ^ 32)
                      (it ++ [e])) by (repeat constructor; simpl; lia).
  assert (H2 : find (fun e => bytes_eqb (fst e) key_k) it = None) by reflexivity.
  assert (H3 : (0 < 9 < length (Legacy.record e))%nat) by (unfold Legacy.record; rewrite !length_app, !le_bytes_length; simpl; lia).
  split; [exact H1 | split; [exact H2 | split; [exact H3 |]]].
  rewrite (FindInSSTable_truncated it e 9 key_k H1 H2 H3). reflexivity.
Defined.

(** ** WAL replay and opening *)
Lemma replay_loop_truncated : forall fuel e c data mx,
  wal_entry_ok e = true ->
  (0 < c < length (wal_record e))%nat ->
  replay_loop (S fuel) (firstn c (wal_record e)) data mx =
  ReplayErr (if (c <? 4)%nat then ErrChecksumRead
             else if (c <? 21)%nat then ErrHeader else ErrKeyValue).
Proof.
  intros fuel e c data mx Hok Hc.
  destruct (wal_entry_ok_spec e Hok) as [Hs [Hop [Hb Hlen]]].
  set (kl := Z.of_nat (length (Key e))) in *.
  set (vl := Z.of_nat (slen (Value e))) in *.
  set (C := le_bytes 4 (ChecksumIEEE (wal_body e))).
  set (H := le_bytes 8 (EntrySeqNum e) ++ le_bytes 4 kl ++ le_bytes 4 vl ++ [Op e]).
  set (KV := Key e ++ sbytes (Value e)).
  assert (Er : wal_record e = C ++ H ++ KV)
    by (unfold wal_record, wal_body, C, H, KV; rewrite <- !app_assoc; reflexivity).
  assert (HC : length C = 4%nat) by apply le_bytes_length.
  assert (HH : length H = 17%nat)
    by (unfold H; rewrite !length_app, !le_bytes_length; reflexivity).
  assert (HKV : length KV = Z.to_nat (kl + vl))
    by (unfold KV, kl, vl; rewrite length_app, <- slen_sbytes; lia).
  assert (Ek : firstn 4 (skipn 8 H) = le_bytes 4 kl) by reflexivity.
  assert (Ev : firstn 4 (skipn 12 H) = le_bytes 4 vl) by reflexivity.
  assert (Hkl : le_decode (le_bytes 4 kl) = kl)
    by (rewrite le_decode_le_bytes, Z.mod_small; [reflexivity | unfold kl; lia]).
  assert (Hvl : le_decode (le_bytes 4 vl) = vl)
    by (rewrite le_decode_le_bytes, Z.mod_small; [reflexivity | unfold vl; lia]).
  assert (Hsum : (kl + vl) mod 2 ^ 32 = kl + vl)
    by (apply Z.mod_small; unfold kl, vl; lia).
  rewrite Er in Hc |- *. rewrite !length_app, HC, HH, HKV in Hc.
  cbn [replay_loop].
  destruct (firstn c (C ++ H ++ KV)) as [|x y] eqn:E.
  { apply (f_equal (@length Z)) in E. rewrite length_firstn, !length_app in E. simpl in E. lia. }
  cbv beta iota. rewrite <- E. clear x y E.
  rewrite length_firstn, !length_app, HC, HH, HKV.
  destruct (Nat.ltb_spec c 4) as [C4|C4].
  { rewrite (proj2 (Nat.ltb_lt _ _)) by lia. reflexivity. }
  rewrite (proj2 (Nat.ltb_ge _ _)) by lia.
  assert (S4 : skipn 4 (C ++ H ++ KV) = H ++ KV) by (rewrite <- HC; apply skipn_app_len).
  rewrite skipn_firstn_comm, S4.
  rewrite length_firstn, length_app, HH, HKV.
  destruct (Nat.ltb_spec c 21) as [C21|C21].
  { rewrite (proj2 (Nat.ltb_lt _ _)) by lia. reflexivity. }
  rewrite (proj2 (Nat.ltb_ge _ _)) by lia.
  rewrite firstn_firstn, Nat.min_l by lia.
  assert (F17 : firstn 17 (H ++ KV) = H) by (rewrite <- HH; apply firstn_app_len).
  assert (S17 : skipn 17 (H ++ KV) = KV) by (rewrite <- HH; apply skipn_app_len).
  rewrite F17, skipn_firstn_comm, S17.
  rewrite Ek, Ev, Hkl, Hvl, Hsum, length_firstn, HKV.
  rewrite (proj2 (Nat.ltb_lt _ _)) by lia. reflexivity.
Qed.

Lemma replay_bytes_truncated : forall es e c,
  forallb wal_entry_ok (es ++ [e]) = true ->
  (0 < c < length (wal_record e))%nat ->
  replay_bytes (wal_file es ++ firstn c (wal_record e)) =
  ReplayErr (if (c <? 4)%nat then ErrChecksumRead
             else if (c <? 21)%nat then ErrHeader else ErrKeyValue).
Proof.
  intros es e c Hok Hc. rewrite forallb_app in Hok. apply andb_prop in Hok as [Hes He].
  simpl in He. rewrite andb_true_r in He.
  unfold replay_bytes. rewrite wal_file_concat.
  pose proof (wal_records_length es) as Hl.
  replace (S (length (concat (map wal_record es) ++ firstn c (wal_record e))))
    with (length es + S (length (concat (map wal_record es) ++ firstn c (wal_record e))
                         - length es))%nat
    by (rewrite length_app; lia).
  rewrite replay_entries by exact Hes.
  apply replay_loop_truncated; assumption.
Qed.

(** [Replay] of a log whose last record was cut short, after [c] of its
    bytes (a crash in the middle of [WAL.Write]), fails: with the checksum
    read error when fewer than the 4 checksum bytes are there, with
    "could not read header" when the 17 header bytes are incomplete, and
    with "could not read key/value" otherwise.  The complete records before
    it are not returned. *)
Theorem Replay_truncated_record : forall es e c,
  forallb wal_entry_ok (es ++ [e]) = true ->
  (0 < c < length (wal_record e))%nat ->
  replay_bytes (wal_file es ++ firstn c (wal_record e)) =
  ReplayErr (if (c <? 4)%nat then ErrChecksumRead
             else if (c <? 21)%nat then ErrHeader else ErrKeyValue).
Proof. exact replay_bytes_truncated. Qed.

Lemma Replay_truncated_record_witness :
  let e := mkEntry OpPut key_k (Some val_new) 9 in
  forallb wal_entry_ok (wal_example_entries ++ [e]) = true /\
  (0 < 10 < length (wal_record e))%nat /\
  replay_bytes (wal_file wal_example_entries ++ firstn 10 (wal_record e)) = ReplayErr ErrHeader.
Proof.
  intros e.
  assert (H1 : forallb wal_entry_ok (wal_example_entries ++ [e]) = true) by (vm_compute; reflexivity).
  assert (H2 : (0 < 10 < length (wal_record e))%nat)
    by (unfold wal_record, wal_body; rewrite !length_app, !le_bytes_length; simpl; lia).
  split; [exact H1 | split; [exact H2 |]].
  rewrite (Replay_truncated_record wal_example_entries e 10 H1 H2). reflexivity.
Defined.

Lemma recover_fails : forall fs ps m mx p,
  In p ps -> fs_get fs p <> None ->
  (forall rd x, Replay fs p <> ReplayOk rd x) ->
  recover fs ps m mx = Ret None \/
  (recover fs ps m mx = Panic /\ exists q, In q ps /\ Replay fs q = ReplayPanic).
Proof.
  intros fs0 ps. induction ps as [|q ps IH]; intros m mx p Hin Hp Hr; [destruct Hin|].
  cbn [recover]. destruct Hin as [<-|Hin].
  - destruct (fs_get fs0 q) as [f|] eqn:E; [|contradiction].
    destruct (Replay fs0 q) as [rd x| |] eqn:R.
    + exfalso. exact (Hr rd x eq_refl).
    + left. reflexivity.
    + right. split; [reflexivity|]. exists q. split; [left; reflexivity | exact R].
  - assert (Hl : forall m' mx', recover fs0 ps m' mx' = Ret None \/
                   (recover fs0 ps m' mx' = Panic /\
                    exists q', In q' (q :: ps) /\ Replay fs0 q' = ReplayPanic)).
    { intros m' mx'. destruct (IH m' mx' p Hin Hp Hr) as [H|[H [q' [Hq' Hr']]]];
        [left; exact H | right; split; [exact H | exists q'; split; [right|]; assumption]]. }
    destruct (fs_get fs0 q); [|apply Hl].
    destruct (Replay fs0 q) as [rd x| |] eqn:R; [apply Hl | left; reflexivity |].
    right. split; [reflexivity|]. exists q. split; [left; reflexivity | exact R].
Qed.

(** [NewDB] refuses to open a data directory whose active WAL ends with a
    record cut short (a crash in the middle of [WAL.Write]), the records
    being ones [Replay] can read back (len(key)+len(value) below [2^32]):
    [Replay] of [db.wal] fails and [NewDB] returns its error, unless an
    earlier rotated WAL segment makes [Replay] panic, in which case [NewDB]
    panics there. *)
Theorem NewDB_torn_active_wal : forall fs es e c,
  fs_get fs PActiveWal = Some (FWal (wal_file es ++ firstn c (wal_record e))) ->
  forallb wal_entry_ok (es ++ [e]) = true ->
  (0 < c < length (wal_record e))%nat ->
  NewDB fs = Ret None \/
  (NewDB fs = Panic /\ exists p, In p (rotated_wals fs) /\ Replay fs p = ReplayPanic).
Proof.
  intros fs0 es e c Hf Hok Hc. unfold NewDB.
  destruct (match fs_get fs0 PState with
            | None => Some 1 | Some (FState c0) => Some c0 | Some _ => None end);
    [|left; reflexivity].
  assert (Hr : Replay fs0 PActiveWal
               = ReplayErr (if (c <? 4)%nat then ErrChecksumRead
                            else if (c <? 21)%nat then ErrHeader else ErrKeyValue))
    by (unfold Replay; rewrite Hf; exact (replay_bytes_truncated es e c Hok Hc)).
  destruct (recover_fails fs0 (rotated_wals fs0 ++ [PActiveWal]) NewMemTable 0 PActiveWal)
    as [H|[H [q [Hq Hq']]]].
  - apply in_or_app. right. left. reflexivity.
  - rewrite Hf. discriminate.
  - intros rd x. rewrite Hr. discriminate.
  - rewrite H. left. reflexivity.
  - rewrite H. right. split; [reflexivity|]. exists q. split; [|exact Hq'].
    apply in_app_or in Hq. destruct Hq as [Hq|[<-|[]]]; [exact Hq|].
    rewrite Hr in Hq'. discriminate.
Qed.

Lemma NewDB_torn_active_wal_witness :
  let e := mkEntry OpPut key_k (Some val_new) 9 in
  let fs := [(PState, FState 1);
             (PActiveWal, FWal (wal_file wal_example_entries ++ firstn 22 (wal_record e)))] in
  fs_get fs PActiveWal = Some (FWal (wal_file wal_example_entries ++ firstn 22 (wal_record e))) /\
  forallb wal_entry_ok (wal_example_entries ++ [e]) = true /\
  (0 < 22 < length (wal_record e))%nat /\
  (NewDB fs = Ret None \/
   (NewDB fs = Panic /\ exists p, In p (rotated_wals fs) /\ Replay fs p = ReplayPanic)).
Proof.
  intros e fs.
  assert (H0 : fs_get fs PActiveWal
               = Some (FWal (wal_file wal_example_entries ++ firstn 22 (wal_record e))))
    by reflexivity.
  assert (H1 : forallb wal_entry_ok (wal_example_entries ++ [e]) = true) by (vm_compute; reflexivity).
  assert (H2 : (0 < 22 < length (wal_record e))%nat)
    by (unfold wal_record, wal_body; rewrite !length_app, !le_bytes_length; simpl; lia).
  split; [exact H0 | split; [exact H1 | split; [exact H2 |]]].
  exact (NewDB_torn_active_wal fs wal_example_entries e 22 H0 H1 H2).
Defined.
